(** * The operation history of the collaborative drawing server

    A shallow embedding of [src/server/drawing-state.js], the class
    [DrawingStateManager]: the shared operation log, its cursor, global
    undo and redo, the conflict classifier and the statistics surface;
    of the socket handlers of the server module that call it; and of the
    layer history of the client's [CanvasManager].

    - JavaScript values are the type [Value]; an operation is the finite map
      from property names to values that [JSON.parse] builds.
    - The manager object is the record [DrawingStateManager]; each method is
      a function from the state before the call to the result and the state
      after it.
    - [Date.now()] is an input of the methods that read the clock.
    - Numbers are the integers and [NaN]: every number the server itself
      produces is a count of milliseconds. What [ToNumber] yields for a
      string and what [ToPrimitive] yields for an object are left to the
      host ([Section Host]); conversions that throw are outside the model.
    - [console.log] and [console.error] are not modelled. *)

From stdpp Require Import gmap strings list fin_maps pretty.
From Stdlib Require Import ZArith Lia.

Local Open Scope Z_scope.

(** ** JavaScript values *)

Inductive Primitive :=
  | PUndefined
  | PNull
  | PBoolean (b : bool)
  | PNumber (n : Z)
  | PNaN
  | PString (s : string).

(** A property holds a primitive or a reference to an object (a path array,
    a nested record); two references are the same value when they are the
    same object. *)
Inductive Value :=
  | VPrim (p : Primitive)
  | VObject (r : positive).

Coercion VPrim : Primitive >-> Value.

Global Instance Primitive_eq_dec : EqDecision Primitive.
Proof. solve_decision. Defined.

Global Instance Value_eq_dec : EqDecision Value.
Proof. solve_decision. Defined.

Definition Primitive_code (p : Primitive) : unit + (unit + (bool + (Z + (unit + string)))) :=
  match p with
  | PUndefined => inl ()
  | PNull => inr (inl ())
  | PBoolean b => inr (inr (inl b))
  | PNumber n => inr (inr (inr (inl n)))
  | PNaN => inr (inr (inr (inr (inl ()))))
  | PString s => inr (inr (inr (inr (inr s))))
  end.

Definition Primitive_decode (c : unit + (unit + (bool + (Z + (unit + string))))) : Primitive :=
  match c with
  | inl _ => PUndefined
  | inr (inl _) => PNull
  | inr (inr (inl b)) => PBoolean b
  | inr (inr (inr (inl n))) => PNumber n
  | inr (inr (inr (inr (inl _)))) => PNaN
  | inr (inr (inr (inr (inr s)))) => PString s
  end.

Global Instance Primitive_countable : Countable Primitive.
Proof.
  refine (inj_countable' Primitive_code Primitive_decode _).
  by intros [].
Defined.

Global Instance Value_countable : Countable Value.
Proof.
  refine (inj_countable'
    (λ v, match v with VPrim p => inl p | VObject r => inr r end)
    (λ c, match c with inl p => VPrim p | inr r => VObject r end) _).
  by intros [].
Defined.

(** An operation object: its own properties. *)
Abbreviation Operation := (gmap string Value).

(** What a socket handler passes to [addOperation]: any JSON value. *)
Inductive Argument :=
  | ArgPrimitive (p : Primitive)
  | ArgObject (o : Operation).

(** [o.k]: an absent property reads as [undefined]. *)
Definition get (o : Operation) (k : string) : Value :=
  default (VPrim PUndefined) (o !! k).

(** [operation.k] on the argument; a primitive has no property [id],
    [userId] or [type]. *)
Definition prop (operation : Argument) (k : string) : Value :=
  match operation with
  | ArgPrimitive _ => PUndefined
  | ArgObject o => get o k
  end.

(** [ToBoolean]. *)
Definition truthyPrimitive (p : Primitive) : bool :=
  match p with
  | PUndefined | PNull | PNaN => false
  | PBoolean b => b
  | PNumber n => negb (n =? 0)
  | PString s => negb (String.eqb s "")
  end.

Definition truthy (v : Value) : bool :=
  match v with
  | VPrim p => truthyPrimitive p
  | VObject _ => true
  end.

Definition truthyArgument (operation : Argument) : bool :=
  match operation with
  | ArgPrimitive p => truthyPrimitive p
  | ArgObject _ => true
  end.

(** [typeof v === "undefined"]. *)
Definition isUndefined (v : Value) : bool :=
  match v with
  | VPrim PUndefined => true
  | _ => false
  end.

(** [a !== b] is [negb (strictEquals a b)]: [NaN] differs from itself,
    objects are compared by reference. *)
Definition strictEquals (a b : Value) : bool :=
  match a with
  | VPrim PNaN => false
  | _ => bool_decide (a = b)
  end.

(** ** The manager's state *)

Record DrawingStateManager := {
  operations : list Operation;
  operationTimestamps : gmap Value Value;
  currentStateIndex : Z;
  userOperations : gmap Value (list Operation)
}.

(** [this.maxOperations], set by the constructor and never written again. *)
Definition maxOperations : Z := 500.

Definition constructor : DrawingStateManager :=
  {| operations := [];
     operationTimestamps := ∅;
     currentStateIndex := -1;
     userOperations := ∅ |}.

(** [l.length]. *)
Definition len {A} (l : list A) : Z := Z.of_nat (length l).

(** [l.slice(0, e)]: a negative [e] counts from the end. *)
Definition slice0 {A} (l : list A) (e : Z) : list A :=
  let k := if e <? 0 then Z.max (len l + e) 0 else Z.min e (len l) in
  take (Z.to_nat k) l.

(** [l[i]]: [None] is [undefined]. *)
Definition index {A} (l : list A) (i : Z) : option A :=
  if i <? 0 then None else l !! Z.to_nat i.

Definition getActiveOperations (st : DrawingStateManager) : list Operation :=
  slice0 (operations st) (currentStateIndex st + 1).

Record CanvasState := {
  cs_operations : list Operation;
  cs_currentIndex : Z;
  cs_timestamp : Z
}.

Definition getCanvasState (now : Z) (st : DrawingStateManager) : CanvasState :=
  {| cs_operations := getActiveOperations st;
     cs_currentIndex := currentStateIndex st;
     cs_timestamp := now |}.

(** ** Undo and redo *)

(** [{ success: false }], or [{ success: true, operation, remainingOperations }]. *)
Inductive HistoryResult :=
  | Failure
  | Success (operation : option Operation) (remainingOperations : list Operation).

Definition success (r : HistoryResult) : bool :=
  match r with
  | Failure => false
  | Success _ _ => true
  end.

Definition setIndex (i : Z) (st : DrawingStateManager) : DrawingStateManager :=
  {| operations := operations st;
     operationTimestamps := operationTimestamps st;
     currentStateIndex := i;
     userOperations := userOperations st |}.

Definition globalUndo (st : DrawingStateManager) : HistoryResult * DrawingStateManager :=
  if 0 <=? currentStateIndex st then
    let undoneOperation := index (operations st) (currentStateIndex st) in
    let st' := setIndex (currentStateIndex st - 1) st in
    (Success undoneOperation (getActiveOperations st'), st')
  else (Failure, st).

Definition globalRedo (st : DrawingStateManager) : HistoryResult * DrawingStateManager :=
  if currentStateIndex st <? len (operations st) - 1 then
    let st' := setIndex (currentStateIndex st + 1) st in
    let redoneOperation := index (operations st') (currentStateIndex st') in
    (Success redoneOperation (getActiveOperations st'), st')
  else (Failure, st).

(** ** Clear *)

(** The two readings of the clock are the two arguments, in the order the
    object literal evaluates them. *)
Definition clearOperation (nowId nowTimestamp : Z) : Operation :=
  <["id" := VPrim (PString ("clear_" +:+ pretty nowId))]>
  (<["type" := VPrim (PString "clear")]>
  (<["userId" := VPrim (PString "system")]>
  (<["timestamp" := VPrim (PNumber nowTimestamp)]> ∅))).

Definition clear (nowId nowTimestamp : Z) (st : DrawingStateManager)
  : Operation * DrawingStateManager :=
  let op := clearOperation nowId nowTimestamp in
  (op, {| operations := [op];
          currentStateIndex := 0;
          operationTimestamps := ∅;
          userOperations := ∅ |}).

(** ** Statistics *)

Record Stats := {
  totalOperations : Z;
  currentIndex : Z;
  activeUsers : nat;
  canUndo : bool;
  canRedo : bool
}.

Definition getStats (st : DrawingStateManager) : Stats :=
  {| totalOperations := len (operations st);
     currentIndex := currentStateIndex st;
     activeUsers := size (userOperations st);
     canUndo := 0 <=? currentStateIndex st;
     canRedo := currentStateIndex st <? len (operations st) - 1 |}.

(** ** A host for the examples

    Strings of decimal digits convert to the number they spell, any other
    string to [NaN]; an object converts to the string of a plain object. *)

Definition digit (a : Ascii.ascii) : option Z :=
  let n := Z.of_nat (Ascii.nat_of_ascii a) in
  if (48 <=? n) && (n <=? 57) then Some (n - 48) else None.

Fixpoint digits (acc : Z) (s : string) : option Z :=
  match s with
  | EmptyString => Some acc
  | String a s' =>
      match digit a with
      | Some d => digits (10 * acc + d) s'
      | None => None
      end
  end.

Definition decimalToNumber (s : string) : option Z := digits 0 s.

Definition plainObject (r : positive) : Primitive := PString "[object Object]".

(** A draw operation as the client builds it, and one without timestamp. *)
Definition untimed (id : Z) (user : string) : Operation :=
  <["id" := VPrim (PNumber id)]>
  (<["type" := VPrim (PString "draw")]>
  (<["userId" := VPrim (PString user)]>
  (<["path" := VObject 1]> ∅))).

Definition drawing (id : Z) (user : string) (timestamp : Z) : Operation :=
  <["timestamp" := VPrim (PNumber timestamp)]> (untimed id user).

(** ** The client's layer history

    The undo history of [CanvasManager] in [src/client/canvas.js]:
    [saveState], [undo], [redo], [canUndo] and [canRedo]. The canvas
    context is outside the model: the image [getImageData] reads is an
    argument of [saveState], and the image [restoreState] hands to
    [putImageData] is part of what [undo] and [redo] give back. *)

Module Canvas.
Section Layers.

Context {ImageData : Type}.

Record CanvasManager := {
  layers : list ImageData;
  currentLayerIndex : Z
}.

(** [this.maxLayers]. *)
Definition maxLayers : Z := 50.

Definition saveState (imageData : ImageData) (c : CanvasManager) : CanvasManager :=
  let kept := slice0 (layers c) (currentLayerIndex c + 1) ++ [imageData] in
  if maxLayers <? len kept then
    {| layers := tail kept; currentLayerIndex := currentLayerIndex c + 1 - 1 |}
  else
    {| layers := kept; currentLayerIndex := currentLayerIndex c + 1 |}.

(** The constructor empties the history and saves the canvas as it is. *)
Definition constructor (imageData : ImageData) : CanvasManager :=
  saveState imageData {| layers := []; currentLayerIndex := -1 |}.

(** What [undo] and [redo] do besides moving the index: return a boolean,
    after [putImageData] of a layer when it is [true]; or end in the
    [TypeError] that [putImageData(undefined, 0, 0)] raises. *)
Inductive Outcome :=
  | Returned (result : bool) (restored : option ImageData)
  | TypeError.

Definition restoreState (layer : option ImageData) : Outcome :=
  match layer with
  | Some imageData => Returned true (Some imageData)
  | None => TypeError
  end.

Definition undo (c : CanvasManager) : Outcome * CanvasManager :=
  if 0 <? currentLayerIndex c then
    let c' := {| layers := layers c; currentLayerIndex := currentLayerIndex c - 1 |} in
    (restoreState (index (layers c') (currentLayerIndex c')), c')
  else (Returned false None, c).

Definition redo (c : CanvasManager) : Outcome * CanvasManager :=
  if currentLayerIndex c <? len (layers c) - 1 then
    let c' := {| layers := layers c; currentLayerIndex := currentLayerIndex c + 1 |} in
    (restoreState (index (layers c') (currentLayerIndex c')), c')
  else (Returned false None, c).

Definition canUndo (c : CanvasManager) : bool := 0 <? currentLayerIndex c.

Definition canRedo (c : CanvasManager) : bool :=
  currentLayerIndex c <? len (layers c) - 1.

Inductive Call :=
  | SaveState (imageData : ImageData)
  | Undo
  | Redo.

Definition step (c : CanvasManager) (call : Call) : CanvasManager :=
  match call with
  | SaveState imageData => saveState imageData c
  | Undo => (undo c).2
  | Redo => (redo c).2
  end.

Definition run (calls : list Call) (c : CanvasManager) : CanvasManager :=
  foldl step c calls.

Definition undos (n : nat) (c : CanvasManager) : CanvasManager :=
  Nat.iter n (λ c', (undo c').2) c.

(** The index is on a layer and the history is within its bound. *)
Definition Inv (c : CanvasManager) : Prop :=
  0 ≤ currentLayerIndex c
  ∧ currentLayerIndex c ≤ len (layers c) - 1
  ∧ len (layers c) ≤ maxLayers.

End Layers.

Arguments CanvasManager : clear implicits.
Arguments Outcome : clear implicits.
Arguments Call : clear implicits.

End Canvas.

(** ** Adding an operation *)

Section Host.

(** [ToNumber] on a string ([None] is [NaN]) and [ToPrimitive], with hint
    number, on an object. *)
Variable StringToNumber : string → option Z.
Variable ToPrimitive : positive → Primitive.

Definition ToNumberPrimitive (p : Primitive) : option Z :=
  match p with
  | PUndefined | PNaN => None
  | PNull => Some 0
  | PBoolean b => Some (if b then 1 else 0)
  | PNumber n => Some n
  | PString s => StringToNumber s
  end.

Definition toPrimitive (v : Value) : Primitive :=
  match v with
  | VPrim p => p
  | VObject r => ToPrimitive r
  end.

Definition ToNumber (v : Value) : option Z :=
  ToNumberPrimitive (toPrimitive v).

(** [Math.abs(a - b) < timeWindow]; a comparison with [NaN] is false. *)
Definition withinWindow (timeWindow : Z) (a b : Value) : bool :=
  match ToNumber a, ToNumber b with
  | Some x, Some y => Z.abs (x - y) <? timeWindow
  | _, _ => false
  end.

(** [a < b]: two strings are compared as strings, anything else as
    numbers. *)
Definition lessThan (a b : Value) : bool :=
  match toPrimitive a, toPrimitive b with
  | PString s1, PString s2 => String.ltb s1 s2
  | p1, p2 =>
      match ToNumberPrimitive p1, ToNumberPrimitive p2 with
      | Some x, Some y => x <? y
      | _, _ => false
      end
  end.

Definition detectConflict (st : DrawingStateManager) (newOperation : Operation)
  : option Operation :=
  let timeWindow := 100 in
  let recentOps :=
    List.filter
      (λ op : Operation,
         withinWindow timeWindow (get op "timestamp") (get newOperation "timestamp")
         && negb (strictEquals (get op "userId") (get newOperation "userId")))
      (operations st) in
  if 0 <? len recentOps then index recentOps (len recentOps - 1) else None.

(** Both branches only write to the console. *)
Definition resolveConflict (newOperation conflictingOperation : Operation) : Operation :=
  if lessThan (get newOperation "timestamp") (get conflictingOperation "timestamp")
  then newOperation
  else newOperation.

(** Lines 22-24: [if (!operation.timestamp) operation.timestamp = Date.now()]. *)
Definition stamp (now : Z) (operation : Operation) : Operation :=
  if negb (truthy (get operation "timestamp"))
  then <["timestamp" := VPrim (PNumber now)]> operation
  else operation.

(** Lines 26-30. *)
Definition classify (st : DrawingStateManager) (operation : Operation) : Operation :=
  match detectConflict st operation with
  | Some conflict => resolveConflict operation conflict
  | None => operation
  end.

(** Lines 32-34: drop the redo branch. *)
Definition truncate (st : DrawingStateManager) : DrawingStateManager :=
  if currentStateIndex st <? len (operations st) - 1 then
    {| operations := slice0 (operations st) (currentStateIndex st + 1);
       operationTimestamps := operationTimestamps st;
       currentStateIndex := currentStateIndex st;
       userOperations := userOperations st |}
  else st.

(** Lines 36-38. *)
Definition push (operation : Operation) (st : DrawingStateManager) : DrawingStateManager :=
  {| operations := operations st ++ [operation];
     operationTimestamps :=
       <[get operation "id" := get operation "timestamp"]> (operationTimestamps st);
     currentStateIndex := currentStateIndex st + 1;
     userOperations := userOperations st |}.

(** Lines 40-43. *)
Definition recordUser (operation : Operation) (st : DrawingStateManager)
  : DrawingStateManager :=
  let users :=
    match userOperations st !! get operation "userId" with
    | None => <[get operation "userId" := []]> (userOperations st)
    | Some _ => userOperations st
    end in
  {| operations := operations st;
     operationTimestamps := operationTimestamps st;
     currentStateIndex := currentStateIndex st;
     userOperations :=
       <[get operation "userId" :=
           default [] (users !! get operation "userId") ++ [operation]]> users |}.

(** Lines 45-49: [shift] removes the first entry; the list is not empty
    when its length exceeds [maxOperations]. *)
Definition evict (st : DrawingStateManager) : DrawingStateManager :=
  if maxOperations <? len (operations st) then
    match operations st with
    | removed :: rest =>
        {| operations := rest;
           operationTimestamps := delete (get removed "id") (operationTimestamps st);
           currentStateIndex := currentStateIndex st - 1;
           userOperations := userOperations st |}
    | [] => st
    end
  else st.

(** Lines 32-49 on the operation that validation and classification let
    through. *)
Definition append (operation : Operation) (st : DrawingStateManager)
  : DrawingStateManager :=
  evict (recordUser operation (push operation (truncate st))).

(** Lines 12-17. *)
Definition invalid (operation : Argument) : bool :=
  negb (truthyArgument operation)
  || isUndefined (prop operation "id")
  || negb (truthy (prop operation "userId"))
  || negb (truthy (prop operation "type")).

Definition addOperation (now : Z) (operation : Argument) (st : DrawingStateManager)
  : bool * DrawingStateManager :=
  if invalid operation then (false, st)
  else
    match operation with
    | ArgObject o => (true, append (classify st (stamp now o)) st)
    | ArgPrimitive _ => (false, st)
    end.

(** ** Sequences of calls *)

Inductive Call :=
  | AddOperation (now : Z) (operation : Argument)
  | GlobalUndo
  | GlobalRedo
  | Clear (nowId nowTimestamp : Z).

Definition step (st : DrawingStateManager) (c : Call) : DrawingStateManager :=
  match c with
  | AddOperation now operation => (addOperation now operation st).2
  | GlobalUndo => (globalUndo st).2
  | GlobalRedo => (globalRedo st).2
  | Clear nowId nowTimestamp => (clear nowId nowTimestamp st).2
  end.

Definition run (calls : list Call) (st : DrawingStateManager) : DrawingStateManager :=
  foldl step st calls.

(** ** Whose operations were accepted

    The [userId] of the operation a call to [addOperation] accepted, in
    the state [st] the call found. *)
Definition acceptedUserId (st : DrawingStateManager) (c : Call) : list Value :=
  match c with
  | AddOperation now operation =>
      if (addOperation now operation st).1 then [prop operation "userId"] else []
  | _ => []
  end.

(** The [userId]s accepted along [calls], from the state [st] on. *)
Fixpoint usersEver (calls : list Call) (st : DrawingStateManager) : list Value :=
  match calls with
  | [] => []
  | c :: calls' => acceptedUserId st c ++ usersEver calls' (step st c)
  end.

(** The same, forgetting all of them at every [clear]. *)
Fixpoint usersSinceClear (calls : list Call) (st : DrawingStateManager)
    (acc : list Value) : list Value :=
  match calls with
  | [] => acc
  | c :: calls' =>
      usersSinceClear calls' (step st c)
        match c with
        | Clear _ _ => []
        | _ => acc ++ acceptedUserId st c
        end
  end.

(** The number of distinct values in a list. *)
Definition distinct (l : list Value) : nat :=
  size (list_to_set l : gset Value).

(** ** The rest of the manager, seen from outside

    The test [detectConflict] filters the log with. *)
Definition contends (newOperation op : Operation) : bool :=
  withinWindow 100 (get op "timestamp") (get newOperation "timestamp")
  && negb (strictEquals (get op "userId") (get newOperation "userId")).

(** [n] calls to [globalUndo], to [globalRedo]. *)
Definition undos (n : nat) (st : DrawingStateManager) : DrawingStateManager :=
  Nat.iter n (λ s, (globalUndo s).2) st.

Definition redos (n : nat) (st : DrawingStateManager) : DrawingStateManager :=
  Nat.iter n (λ s, (globalRedo s).2) st.

(** The fields validation asks of an operation. *)
Definition wellFormed (op : Operation) : bool :=
  negb (isUndefined (get op "id"))
  && truthy (get op "userId")
  && truthy (get op "type").

(** The clock a call reads for a timestamp is past the epoch. *)
Definition clockRuns (c : Call) : bool :=
  match c with
  | AddOperation now _ => negb (now =? 0)
  | Clear _ nowTimestamp => negb (nowTimestamp =? 0)
  | _ => true
  end.

(** The operation a call to [addOperation] stored, in the state [st] the
    call found. *)
Definition acceptedOperation (st : DrawingStateManager) (c : Call) : list Operation :=
  match c with
  | AddOperation now (ArgObject o) =>
      if (addOperation now (ArgObject o) st).1 then [stamp now o] else []
  | _ => []
  end.

(** The operations stored along [calls], forgetting all of them at every
    [clear]. *)
Fixpoint operationsSinceClear (calls : list Call) (st : DrawingStateManager)
    (acc : list Operation) : list Operation :=
  match calls with
  | [] => acc
  | c :: calls' =>
      operationsSinceClear calls' (step st c)
        match c with
        | Clear _ _ => []
        | _ => acc ++ acceptedOperation st c
        end
  end.

(** The operations of [l] whose [userId] is [u], as an entry of
    [userOperations]. *)
Definition entryOf (u : Value) (l : list Operation) : option (list Operation) :=
  match List.filter (λ o : Operation, bool_decide (get o "userId" = u)) l with
  | [] => None
  | l' => Some l'
  end.

(** ** The socket handlers of the server

    The callers of the manager, from the [io.on("connection", ...)] block
    of the server module. A handler takes the socket the message came on
    and the message, and gives the emissions it makes, in order, and the
    server's state afterwards. Its [try]/[catch] turns a [TypeError] into
    a return. *)

(** [socket.emit], [socket.broadcast.emit] and [io.emit]. *)
Inductive Audience := Sender | Others | Everyone.

Inductive Payload :=
  | UserCount (n : nat)
  | Snapshot (cs : CanvasState)
  | DrawEvent (operation : Operation)
  | DrawBatch (batch : Argument)
  | OperationAck (id : Value)
  | HistoryEvent (type userId : Value) (operation : option Operation) (timestamp : Z)
  | ClearCanvas (userId : Value) (timestamp : Z).

Record Emission := {
  audience : Audience;
  event : string;
  payload : Payload
}.

(** [connectedUsers] maps a socket id to the record [{ id, connectedAt }],
    whose [id] is the key again. *)
Record Server := {
  drawingState : DrawingStateManager;
  connectedUsers : gmap string Z
}.

Definition listening : Server :=
  {| drawingState := constructor; connectedUsers := ∅ |}.

Definition withState (st : DrawingStateManager) (s : Server) : Server :=
  {| drawingState := st; connectedUsers := connectedUsers s |}.

(** [operation.k] where it may throw: reading a property of [undefined]
    or [null] is a [TypeError], [None] here. *)
Definition member (operation : Argument) (k : string) : option Value :=
  match operation with
  | ArgPrimitive PUndefined | ArgPrimitive PNull => None
  | _ => Some (prop operation k)
  end.

Inductive Incoming :=
  | Connection (nowConnected nowState : Z)
  | DrawPath (now : Z) (operation : Argument)
  | DrawBatchFrom (batch : Argument)
  | HistoryFrom (nowEvent nowState : Z) (operation : Argument)
  | ClearFrom (nowId nowTimestamp nowEvent : Z) (operation : Argument)
  | RequestState (now : Z)
  | Disconnect.

Definition onConnection (socket : string) (nowConnected nowState : Z) (s : Server)
  : list Emission * Server :=
  let users := <[socket := nowConnected]> (connectedUsers s) in
  ([ {| audience := Everyone; event := "user-count";
        payload := UserCount (size users) |};
     {| audience := Sender; event := "canvas-state";
        payload := Snapshot (getCanvasState nowState (drawingState s)) |} ],
   {| drawingState := drawingState s; connectedUsers := users |}).

(** [addOperation] stamps the object it is given, and the handler emits
    that same object. *)
Definition onDrawPath (now : Z) (operation : Argument) (s : Server)
  : list Emission * Server :=
  let (added, st) := addOperation now operation (drawingState s) in
  if added then
    match operation with
    | ArgObject o =>
        ([ {| audience := Others; event := "draw-event";
              payload := DrawEvent (stamp now o) |};
           {| audience := Sender; event := "operation-ack";
              payload := OperationAck (get (stamp now o) "id") |} ],
         withState st s)
    | ArgPrimitive _ => ([], withState st s)
    end
  else ([], withState st s).

Definition onDrawBatch (batch : Argument) (s : Server) : list Emission * Server :=
  ([ {| audience := Others; event := "draw-batch"; payload := DrawBatch batch |} ],
   s).

Definition onHistoryEvent (nowEvent nowState : Z) (operation : Argument) (s : Server)
  : list Emission * Server :=
  match member operation "type" with
  | None => ([], s)
  | Some type =>
      let result :=
        if strictEquals type (PString "undo")
        then Some (globalUndo (drawingState s))
        else if strictEquals type (PString "redo")
        then Some (globalRedo (drawingState s))
        else None in
      match result with
      | Some (Success moved _, st) =>
          ([ {| audience := Everyone; event := "history-event";
                payload := HistoryEvent type (prop operation "userId") moved nowEvent |};
             {| audience := Everyone; event := "canvas-state";
                payload := Snapshot (getCanvasState nowState st) |};
             {| audience := Sender; event := "operation-ack";
                payload := OperationAck (prop operation "id") |} ],
           withState st s)
      | Some (Failure, st) => ([], withState st s)
      | None => ([], s)
      end
  end.

(** [clear()] runs before the handler reads [operation.userId]. *)
Definition onClearCanvas (nowId nowTimestamp nowEvent : Z) (operation : Argument)
    (s : Server) : list Emission * Server :=
  let (_, st) := clear nowId nowTimestamp (drawingState s) in
  match member operation "userId" with
  | None => ([], withState st s)
  | Some userId =>
      ([ {| audience := Everyone; event := "clear-canvas";
            payload := ClearCanvas userId nowEvent |};
         {| audience := Sender; event := "operation-ack";
            payload := OperationAck (prop operation "id") |} ],
       withState st s)
  end.

Definition onRequestState (now : Z) (s : Server) : list Emission * Server :=
  ([ {| audience := Sender; event := "canvas-state";
        payload := Snapshot (getCanvasState now (drawingState s)) |} ],
   s).

Definition onDisconnect (socket : string) (s : Server) : list Emission * Server :=
  let users := delete socket (connectedUsers s) in
  ([ {| audience := Everyone; event := "user-count";
        payload := UserCount (size users) |} ],
   {| drawingState := drawingState s; connectedUsers := users |}).

Definition handle (socket : string) (m : Incoming) (s : Server)
  : list Emission * Server :=
  match m with
  | Connection nowConnected nowState => onConnection socket nowConnected nowState s
  | DrawPath now operation => onDrawPath now operation s
  | DrawBatchFrom batch => onDrawBatch batch s
  | HistoryFrom nowEvent nowState operation =>
      onHistoryEvent nowEvent nowState operation s
  | ClearFrom nowId nowTimestamp nowEvent operation =>
      onClearCanvas nowId nowTimestamp nowEvent operation s
  | RequestState now => onRequestState now s
  | Disconnect => onDisconnect socket s
  end.

(** The messages of a session, each with its socket, handled in order. *)
Fixpoint serve (messages : list (string * Incoming)) (s : Server)
  : list Emission * Server :=
  match messages with
  | [] => ([], s)
  | (socket, m) :: messages' =>
      let (out, s') := handle socket m s in
      let (out', s'') := serve messages' s' in
      (out ++ out', s'')
  end.

(** What every emission of a session is shown to satisfy: a snapshot has
    one operation more than its index says and at most 500, and a history
    event carries an operation. *)
Definition sound (e : Emission) : Prop :=
  match payload e with
  | Snapshot cs =>
      len (cs_operations cs) = cs_currentIndex cs + 1
      ∧ len (cs_operations cs) ≤ 500
  | HistoryEvent _ _ moved _ => is_Some moved
  | _ => True
  end.

(** * Properties *)

(** The data model's invariant on the log. *)
Definition Inv (st : DrawingStateManager) : Prop :=
  -1 ≤ currentStateIndex st
  ∧ currentStateIndex st ≤ len (operations st) - 1
  ∧ len (operations st) ≤ maxOperations.

Section Lists.
Context {A : Type}.
Implicit Types l : list A.

Lemma len_nonneg l : 0 ≤ len l.
Proof. unfold len. lia. Qed.

Lemma len_app l k : len (l ++ k) = len l + len k.
Proof. unfold len. rewrite length_app. lia. Qed.

Lemma len_cons x l : len (x :: l) = len l + 1.
Proof. unfold len. simpl. lia. Qed.

Lemma slice0_take l e : 0 ≤ e → slice0 l e = take (Z.to_nat e) l.
Proof.
  intros He. unfold slice0, len.
  destruct (Z.ltb_spec e 0) as [?|_]; [lia|].
  destruct (Z.min_spec e (Z.of_nat (length l))) as [[Hlt ->]|[Hge ->]]; [done|].
  rewrite Nat2Z.id, !take_ge; [done| lia |lia].
Qed.

Lemma slice0_all l e : len l ≤ e → slice0 l e = l.
Proof.
  intros He. pose proof (len_nonneg l).
  rewrite slice0_take by lia. apply take_ge. unfold len in *. lia.
Qed.

Lemma len_slice0 l e : 0 ≤ e → e ≤ len l → len (slice0 l e) = e.
Proof.
  intros H0 He. rewrite slice0_take by done.
  unfold len in *. rewrite length_take. lia.
Qed.

Lemma index_last l x : index (l ++ [x]) (len l) = Some x.
Proof.
  unfold index, len. destruct (Z.ltb_spec (Z.of_nat (length l)) 0); [lia|].
  rewrite Nat2Z.id. by rewrite lookup_app_r, Nat.sub_diag.
Qed.

Lemma index_tail x l i : 0 ≤ i → index l i = index (x :: l) (i + 1).
Proof.
  intros Hi. unfold index.
  destruct (Z.ltb_spec i 0), (Z.ltb_spec (i + 1) 0); try lia.
  replace (Z.to_nat (i + 1)) with (S (Z.to_nat i)) by lia. done.
Qed.
End Lists.

Implicit Types (st : DrawingStateManager) (o : Operation) (now : Z).

(** *** Validation, stamping, classification *)

Lemma invalid_primitive p : invalid (ArgPrimitive p) = true.
Proof. unfold invalid. simpl. by rewrite orb_true_r. Qed.

Lemma resolveConflict_id o conflict : resolveConflict o conflict = o.
Proof. unfold resolveConflict. by case (lessThan _ _). Qed.

Lemma classify_id st o : classify st o = o.
Proof.
  unfold classify. destruct (detectConflict st o); [|done].
  apply resolveConflict_id.
Qed.

Lemma addOperation_invalid now operation st :
  invalid operation = true → addOperation now operation st = (false, st).
Proof. intros H. unfold addOperation. by rewrite H. Qed.

Lemma addOperation_valid now o st :
  invalid (ArgObject o) = false →
  addOperation now (ArgObject o) st = (true, append (stamp now o) st).
Proof.
  intros H. unfold addOperation. by rewrite H, classify_id.
Qed.

Lemma addOperation_accepts now operation st :
  (addOperation now operation st).1 = negb (invalid operation).
Proof.
  unfold addOperation.
  destruct (invalid operation) eqn:Hv; [done|].
  destruct operation as [p|o]; [|done].
  by rewrite invalid_primitive in Hv.
Qed.

Lemma get_stamp_ne now o k : k ≠ "timestamp" → get (stamp now o) k = get o k.
Proof.
  intros Hk. unfold stamp. case (negb _); [|done].
  unfold get. by rewrite lookup_insert_ne.
Qed.

Lemma stamp_truthy now o : truthy (get o "timestamp") = true → stamp now o = o.
Proof. intros H. unfold stamp. by rewrite H. Qed.

Lemma stamp_falsy now o :
  truthy (get o "timestamp") = false →
  stamp now o = <["timestamp" := VPrim (PNumber now)]> o.
Proof. intros H. unfold stamp. by rewrite H. Qed.

(** *** The shape of the log after [append] *)

Lemma truncate_operations st :
  -1 ≤ currentStateIndex st →
  operations (truncate st) = slice0 (operations st) (currentStateIndex st + 1)
  ∧ currentStateIndex (truncate st) = currentStateIndex st
  ∧ userOperations (truncate st) = userOperations st.
Proof.
  intros Hlo. unfold truncate.
  destruct (Z.ltb_spec (currentStateIndex st) (len (operations st) - 1));
    simpl; [done|].
  split; [|done]. symmetry. apply slice0_all. lia.
Qed.

Lemma evict_operations st :
  operations (evict st) =
    (if maxOperations <? len (operations st) then tail (operations st)
     else operations st)
  ∧ currentStateIndex (evict st) =
    (if maxOperations <? len (operations st) then currentStateIndex st - 1
     else currentStateIndex st)
  ∧ userOperations (evict st) = userOperations st.
Proof.
  unfold evict.
  destruct (Z.ltb_spec maxOperations (len (operations st))) as [Hlt|Hge]; [|done].
  destruct (operations st) as [|removed rest] eqn:Hops; [|done].
  unfold len, maxOperations in Hlt. simpl in Hlt. lia.
Qed.

Lemma append_operations o st :
  -1 ≤ currentStateIndex st →
  let pushed := slice0 (operations st) (currentStateIndex st + 1) ++ [o] in
  operations (append o st) =
    (if maxOperations <? len pushed then tail pushed else pushed)
  ∧ currentStateIndex (append o st) =
    (if maxOperations <? len pushed then currentStateIndex st
     else currentStateIndex st + 1).
Proof.
  intros Hlo pushed. unfold append.
  destruct (evict_operations (recordUser o (push o (truncate st))))
    as (-> & -> & _).
  destruct (truncate_operations st Hlo) as (Hops & Hidx & _).
  simpl. rewrite Hops, Hidx. fold pushed.
  split; [done|]. case (_ <? _); lia.
Qed.

Lemma append_last o st : last (operations (append o st)) = Some o.
Proof.
  unfold append.
  destruct (evict_operations (recordUser o (push o (truncate st))))
    as (-> & _ & _).
  simpl. set (l := operations (truncate st)).
  destruct (Z.ltb_spec maxOperations (len (l ++ [o]))) as [Hlt|_];
    [|apply last_snoc].
  destruct l as [|x l]; simpl.
  - unfold len, maxOperations in Hlt. simpl in Hlt. lia.
  - apply last_snoc.
Qed.

Lemma Inv_append o st : Inv st → Inv (append o st)
  ∧ currentStateIndex (append o st) = len (operations (append o st)) - 1.
Proof.
  intros (Hlo & Hhi & Hmax).
  destruct (append_operations o st Hlo) as [Hops Hidx].
  cbv zeta in Hops, Hidx. rewrite len_app, len_slice0 in Hops, Hidx by lia.
  change (len [o]) with 1 in *.
  assert (Hlen : len (operations (append o st)) =
    if maxOperations <? currentStateIndex st + 1 + 1
    then currentStateIndex st + 1 else currentStateIndex st + 2).
  { rewrite Hops. destruct (_ <? _).
    - assert (Hp : len (slice0 (operations st) (currentStateIndex st + 1) ++ [o])
                   = currentStateIndex st + 2)
        by (rewrite len_app, len_slice0 by lia; change (len [o]) with 1; lia).
      destruct (slice0 _ _ ++ [o]) as [|x l]; simpl.
      + change (len []) with 0 in Hp. lia.
      + rewrite len_cons in Hp. lia.
    - rewrite len_app, len_slice0 by lia. change (len [o]) with 1. lia. }
  unfold Inv. rewrite Hlen, Hidx. unfold maxOperations in *.
  destruct (Z.ltb_spec 500 (currentStateIndex st + 1 + 1)); lia.
Qed.

(** *** The invariant along every call *)

Lemma Inv_constructor : Inv constructor.
Proof. unfold Inv, maxOperations. simpl. change (len []) with 0. lia. Qed.

Lemma Inv_globalUndo st : Inv st → Inv (globalUndo st).2.
Proof.
  intros (Hlo & Hhi & Hmax). unfold globalUndo.
  destruct (Z.leb_spec 0 (currentStateIndex st)); simpl; unfold Inv; simpl; lia.
Qed.

Lemma Inv_globalRedo st : Inv st → Inv (globalRedo st).2.
Proof.
  intros (Hlo & Hhi & Hmax). unfold globalRedo.
  destruct (Z.ltb_spec (currentStateIndex st) (len (operations st) - 1));
    simpl; unfold Inv; simpl; lia.
Qed.

Lemma Inv_clear nowId nowTimestamp st : Inv (clear nowId nowTimestamp st).2.
Proof. unfold Inv, maxOperations. simpl. rewrite len_cons. change (len []) with 0. lia. Qed.

Lemma Inv_addOperation now operation st :
  Inv st → Inv (addOperation now operation st).2.
Proof.
  intros HI. destruct (invalid operation) eqn:Hv.
  - by rewrite addOperation_invalid.
  - destruct operation as [p|o]; [by rewrite invalid_primitive in Hv|].
    rewrite addOperation_valid by done. simpl. by apply Inv_append.
Qed.

Lemma Inv_step st c : Inv st → Inv (step st c).
Proof.
  intros HI. destruct c; simpl.
  - by apply Inv_addOperation.
  - by apply Inv_globalUndo.
  - by apply Inv_globalRedo.
  - apply (Inv_clear nowId nowTimestamp st).
Qed.

Lemma Inv_run calls st : Inv st → Inv (run calls st).
Proof.
  revert st. induction calls as [|c calls IH]; intros st HI; [done|].
  simpl. apply IH. by apply Inv_step.
Qed.


(** *** Failing calls *)

Lemma globalUndo_failure st :
  success (globalUndo st).1 = false → globalUndo st = (Failure, st).
Proof. unfold globalUndo. by case (0 <=? _). Qed.

Lemma globalRedo_failure st :
  success (globalRedo st).1 = false → globalRedo st = (Failure, st).
Proof. unfold globalRedo. by case (_ <? _). Qed.

Lemma addOperation_failure now operation st :
  (addOperation now operation st).1 = false →
  addOperation now operation st = (false, st).
Proof.
  rewrite addOperation_accepts. intros H.
  apply addOperation_invalid. by destruct (invalid operation).
Qed.

(** C6: a failing call leaves the state as it was. [addOperation] on an
    object without [id], [userId] or [type] returns [false] and the same
    state; [globalUndo] at cursor [-1] and [globalRedo] at the last index
    report failure and the same state; and more generally whenever one of
    the three reports failure the state is the one it was called in. *)
Theorem failing_calls_leave_state_unchanged :
  (∀ now o st,
      o !! "id" = None ∨ o !! "userId" = None ∨ o !! "type" = None →
      addOperation now (ArgObject o) st = (false, st))
  ∧ (∀ st, currentStateIndex st = -1 → globalUndo st = (Failure, st))
  ∧ (∀ st, currentStateIndex st = len (operations st) - 1 →
           globalRedo st = (Failure, st))
  ∧ (∀ now operation st,
      (addOperation now operation st).1 = false →
      (addOperation now operation st).2 = st)
  ∧ (∀ st, success (globalUndo st).1 = false → (globalUndo st).2 = st)
  ∧ (∀ st, success (globalRedo st).1 = false → (globalRedo st).2 = st).
Proof.
  repeat split.
  - intros now o st H. apply addOperation_invalid.
    unfold invalid, prop, get.
    destruct H as [-> | [-> | ->]]; simpl; by rewrite ?orb_true_r.
  - intros st H. unfold globalUndo. by rewrite H.
  - intros st H. unfold globalRedo. rewrite H.
    by rewrite Z.ltb_irrefl.
  - intros now operation st H. by rewrite addOperation_failure.
  - intros st H. by rewrite globalUndo_failure.
  - intros st H. by rewrite globalRedo_failure.
Qed.

(** C10: [addOperation] returns [false] exactly when the argument is
    falsy, its [id] is [undefined], or its [userId] or its [type] is
    falsy. So an [id] that is [null], [0] or the empty string does not
    reject an operation whose [userId] and [type] are truthy, and an empty
    [userId] or [type] does. *)
Theorem addOperation_rejects_iff now operation st :
  ((addOperation now operation st).1 = false ↔
     truthyArgument operation = false
     ∨ prop operation "id" = PUndefined
     ∨ truthy (prop operation "userId") = false
     ∨ truthy (prop operation "type") = false)
  ∧ (∀ o, get o "id" = PNull ∨ get o "id" = PNumber 0 ∨ get o "id" = PString "" →
          truthy (get o "userId") = true →
          truthy (get o "type") = true →
          (addOperation now (ArgObject o) st).1 = true)
  ∧ (∀ o, get o "userId" = PString "" ∨ get o "type" = PString "" →
          (addOperation now (ArgObject o) st).1 = false).
Proof.
  split; [|split].
  - rewrite addOperation_accepts, negb_false_iff. unfold invalid.
    rewrite !orb_true_iff, !negb_true_iff.
    assert (Hu : ∀ v, isUndefined v = true ↔ v = PUndefined).
    { intros [[]|]; simpl; split; congruence. }
    rewrite Hu. tauto.
  - intros o Hid Hu Ht. rewrite addOperation_accepts. unfold invalid. simpl.
    rewrite Hu, Ht. by destruct Hid as [-> | [-> | ->]].
  - intros o H. rewrite addOperation_accepts. unfold invalid. simpl.
    destruct H as [-> | ->]; simpl; by rewrite ?orb_true_r.
Qed.

(** C5: after [clear], whatever the state was, the active operations are
    exactly the synthetic operation, whose [type] is ["clear"] and whose
    [userId] is ["system"], and the cursor is [0]; the next [globalUndo]
    succeeds, returns that operation, and leaves cursor [-1] and no active
    operation. *)
Theorem clear_is_hard_reset nowId nowTimestamp st :
  let op := (clear nowId nowTimestamp st).1 in
  let st1 := (clear nowId nowTimestamp st).2 in
  getActiveOperations st1 = [op]
  ∧ get op "type" = PString "clear"
  ∧ get op "userId" = PString "system"
  ∧ currentStateIndex st1 = 0
  ∧ globalUndo st1 = (Success (Some op) [], setIndex (-1) st1)
  ∧ success (globalUndo st1).1 = true
  ∧ currentStateIndex (globalUndo st1).2 = -1
  ∧ getActiveOperations (globalUndo st1).2 = [].
Proof. by repeat split. Qed.


(** *** Appending *)


(** C8, as the code has it: the timestamp of the appended operation is
    the submitted one when that is truthy, and the server's clock when it
    is falsy (absent, [null], [false], [0], [NaN] or the empty string). *)
Theorem addOperation_timestamp now o st :
  invalid (ArgObject o) = false →
  last (operations (addOperation now (ArgObject o) st).2) = Some (stamp now o)
  ∧ (truthy (get o "timestamp") = true →
     stamp now o = o
     ∧ get (stamp now o) "timestamp" = get o "timestamp")
  ∧ (truthy (get o "timestamp") = false →
     stamp now o = <["timestamp" := VPrim (PNumber now)]> o
     ∧ get (stamp now o) "timestamp" = PNumber now).
Proof.
  intros Hv. rewrite addOperation_valid by done. simpl.
  split; [apply append_last|]. split; intros Ht.
  - by rewrite stamp_truthy.
  - rewrite stamp_falsy by done. split; [done|].
    unfold get. by rewrite lookup_insert_eq.
Qed.


(** *** Undo and redo *)

Lemma setIndex_same st : setIndex (currentStateIndex st) st = st.
Proof. by destruct st. Qed.

Lemma undo_redo_at_end st :
  -1 ≤ currentStateIndex st →
  currentStateIndex st = len (operations st) - 1 →
  (globalRedo (globalUndo st).2).2 = st.
Proof.
  intros Hlo Hend. unfold globalUndo.
  destruct (Z.leb_spec 0 (currentStateIndex st)) as [Hge|Hlt]; simpl.
  - unfold globalRedo. simpl.
    destruct (Z.ltb_spec (currentStateIndex st - 1) (len (operations st) - 1));
      [|lia].
    simpl. unfold setIndex. simpl.
    replace (currentStateIndex st - 1 + 1) with (currentStateIndex st) by lia.
    by destruct st.
  - unfold globalRedo.
    by destruct (Z.ltb_spec (currentStateIndex st) (len (operations st) - 1));
      [lia|].
Qed.

Lemma adds_at_end (adds : list (Z * Argument)) st :
  Inv st →
  currentStateIndex st = len (operations st) - 1 →
  Inv (run (map (λ a, AddOperation a.1 a.2) adds) st)
  ∧ currentStateIndex (run (map (λ a, AddOperation a.1 a.2) adds) st)
    = len (operations (run (map (λ a, AddOperation a.1 a.2) adds) st)) - 1.
Proof.
  revert st. induction adds as [|[now operation] adds IH]; intros st HI Hend;
    [done|].
  simpl. destruct (invalid operation) eqn:Hv.
  - rewrite addOperation_invalid by done. by apply IH.
  - destruct operation as [p|o]; [by rewrite invalid_primitive in Hv|].
    rewrite addOperation_valid by done. simpl.
    destruct (Inv_append (stamp now o) st HI). by apply IH.
Qed.

(** C4: in a log built from the empty one by calls to [addOperation]
    alone, [globalUndo] followed by [globalRedo] gives back the same
    active operations and the same cursor; indeed the same state. *)
Theorem undo_redo_symmetry (adds : list (Z * Argument)) :
  let st := run (map (λ a, AddOperation a.1 a.2) adds) constructor in
  let st'' := (globalRedo (globalUndo st).2).2 in
  getActiveOperations st'' = getActiveOperations st
  ∧ currentStateIndex st'' = currentStateIndex st
  ∧ st'' = st.
Proof.
  intros st st''.
  destruct (adds_at_end adds constructor Inv_constructor eq_refl)
    as [(Hlo & _ & _) Hend].
  fold st in Hlo, Hend.
  assert (H : st'' = st) by (by apply undo_redo_at_end).
  by rewrite H.
Qed.



(** *** Cursor bounds and retention *)

Lemma truncate_at_end st :
  Inv st →
  currentStateIndex (truncate st) = len (operations (truncate st)) - 1.
Proof.
  intros (Hlo & Hhi & Hmax).
  destruct (truncate_operations st Hlo) as (-> & -> & _).
  rewrite len_slice0; lia.
Qed.

(** C2: every state reached from the empty log by calls to
    [addOperation], [globalUndo], [globalRedo] and [clear] has
    [-1 ≤ cursor ≤ length - 1] and [length ≤ 500]. When [addOperation]
    finds the log longer than the bound after its push, the state it
    returns has lost the oldest entry and its cursor is one less, so that
    the cursor denotes the same operation as before the eviction (the one
    just pushed) and the bounds hold again. *)
Theorem cursor_bounds_and_retention (calls : list Call) :
  let st := run calls constructor in
  (-1 ≤ currentStateIndex st
   ∧ currentStateIndex st ≤ len (operations st) - 1
   ∧ len (operations st) ≤ 500)
  ∧ ∀ now o,
      invalid (ArgObject o) = false →
      let pushed := recordUser (stamp now o) (push (stamp now o) (truncate st)) in
      let st' := (addOperation now (ArgObject o) st).2 in
      maxOperations < len (operations pushed) →
      st' = evict pushed
      ∧ operations st' = tail (operations pushed)
      ∧ currentStateIndex st' = currentStateIndex pushed - 1
      ∧ index (operations st') (currentStateIndex st')
        = index (operations pushed) (currentStateIndex pushed)
      ∧ index (operations st') (currentStateIndex st') = Some (stamp now o)
      ∧ Inv st'.
Proof.
  intros st. assert (HI : Inv st) by apply Inv_run, Inv_constructor.
  split; [exact HI|].
  intros now o Hv pushed st' Hlong. subst st'.
  rewrite addOperation_valid by done. simpl.
  change (append (stamp now o) st) with (evict pushed).
  destruct (evict_operations pushed) as (Hops & Hidx & _).
  destruct (Z.ltb_spec maxOperations (len (operations pushed))); [|lia].
  pose proof (truncate_at_end st HI) as Hend.
  assert (Hpi : currentStateIndex pushed = len (operations (truncate st)))
    by (simpl; lia).
  assert (Hpo : operations pushed = operations (truncate st) ++ [stamp now o])
    by done.
  assert (Hlast : index (operations pushed) (currentStateIndex pushed)
                  = Some (stamp now o))
    by (rewrite Hpi, Hpo; apply index_last).
  assert (Hsame : index (operations (evict pushed)) (currentStateIndex (evict pushed))
                  = index (operations pushed) (currentStateIndex pushed)).
  { rewrite Hops, Hidx. rewrite Hpo in *. rewrite Hpi.
    destruct (operations (truncate st)) as [|x l]; simpl.
    - change (len ([] ++ [stamp now o])) with 1 in *. unfold maxOperations in *. lia.
    - rewrite len_cons. pose proof (len_nonneg l).
      replace (len l + 1 - 1) with (len l) by lia.
      by apply index_tail. }
  repeat split; try done.
  - by rewrite Hsame.
  - change (evict pushed) with (append (stamp now o) st). by apply Inv_append.
  - change (evict pushed) with (append (stamp now o) st). by apply Inv_append.
  - change (evict pushed) with (append (stamp now o) st). by apply Inv_append.
Qed.

(** *** Statistics *)

Lemma recordUser_dom o st :
  dom (userOperations (recordUser o st))
  = {[get o "userId"]} ∪ dom (userOperations st).
Proof.
  unfold recordUser. simpl. rewrite dom_insert_L.
  destruct (userOperations st !! get o "userId") eqn:Hu; [done|].
  rewrite dom_insert_L. by rewrite (assoc_L (∪)), union_idemp_L.
Qed.

Lemma append_dom o st :
  dom (userOperations (append o st))
  = {[get o "userId"]} ∪ dom (userOperations st).
Proof.
  unfold append.
  destruct (evict_operations (recordUser o (push o (truncate st))))
    as (_ & _ & ->).
  rewrite recordUser_dom. simpl. unfold truncate. by case (_ <? _).
Qed.

Lemma step_dom st c acc :
  dom (userOperations st) = list_to_set acc →
  dom (userOperations (step st c))
  = list_to_set match c with
                | Clear _ _ => []
                | _ => acc ++ acceptedUserId st c
                end.
Proof.
  intros Hacc. destruct c as [now operation| | |nowId nowTimestamp].
  - unfold acceptedUserId. simpl. destruct (invalid operation) eqn:Hv.
    + rewrite addOperation_invalid by done. simpl. by rewrite app_nil_r.
    + destruct operation as [p|o]; [by rewrite invalid_primitive in Hv|].
      rewrite addOperation_valid by done. simpl.
      rewrite append_dom, get_stamp_ne by done.
      rewrite list_to_set_app_L, Hacc. simpl.
      rewrite (right_id_L ∅ (∪)). apply (comm_L (∪)).
  - simpl. rewrite app_nil_r. unfold globalUndo. by case (0 <=? _).
  - simpl. rewrite app_nil_r. unfold globalRedo. by case (_ <? _).
  - simpl. by rewrite dom_empty_L.
Qed.

Lemma run_dom calls st acc :
  dom (userOperations st) = list_to_set acc →
  dom (userOperations (run calls st))
  = list_to_set (usersSinceClear calls st acc).
Proof.
  revert st acc. induction calls as [|c calls IH]; intros st acc Hacc; [done|].
  simpl. apply IH. by apply step_dom.
Qed.

(** C9, as the code has it: [getStats().activeUsers] is the number of
    distinct [userId]s among the operations [addOperation] has accepted
    since the last [clear], or since the start when there was none. *)
Theorem activeUsers_counts_since_clear (calls : list Call) :
  activeUsers (getStats (run calls constructor))
  = distinct (usersSinceClear calls constructor []).
Proof.
  unfold distinct. simpl.
  rewrite <- (run_dom calls constructor []) by (simpl; by rewrite dom_empty_L).
  by rewrite size_dom.
Qed.


(** * Further properties of the manager *)

(** *** Snapshots *)

Lemma active_take st :
  Inv st →
  getActiveOperations st = take (Z.to_nat (currentStateIndex st + 1)) (operations st)
  ∧ len (getActiveOperations st) = currentStateIndex st + 1.
Proof.
  intros (Hlo & Hhi & _). unfold getActiveOperations.
  split; [apply slice0_take|apply len_slice0]; lia.
Qed.

Lemma len_zero_nil {A} (l : list A) : len l = 0 ↔ l = [].
Proof.
  split; [|by intros ->]. destruct l; [done|]. rewrite len_cons.
  pose proof (len_nonneg l). lia.
Qed.

Lemma take_all_iff {A} (l : list A) n : take n l = l ↔ (length l ≤ n)%nat.
Proof.
  split; [|apply take_ge]. intros H.
  apply (f_equal length) in H. rewrite length_take in H. lia.
Qed.

(** X1: In every state the server can reach, the snapshot [getCanvasState]
    returns holds the first [currentIndex + 1] entries of the log, so that
    [operations.length] is [currentIndex + 1], at most [500], and its
    timestamp is the clock's. *)
Theorem getCanvasState_is_prefix (now : Z) (calls : list Call) :
  let st := run calls constructor in
  let cs := getCanvasState now st in
  cs_operations cs = take (Z.to_nat (cs_currentIndex cs + 1)) (operations st)
  ∧ len (cs_operations cs) = cs_currentIndex cs + 1
  ∧ len (cs_operations cs) ≤ 500
  ∧ cs_timestamp cs = now.
Proof.
  intros st cs. assert (HI : Inv st) by apply Inv_run, Inv_constructor.
  destruct (active_take st HI) as [Htake Hlen].
  destruct HI as (Hlo & Hhi & Hmax). unfold maxOperations in Hmax.
  subst cs. simpl. rewrite Hlen. repeat split; [done|lia].
Qed.

(** X2: In every reachable state [getStats] tells what the next call will do:
    [canUndo] is whether [globalUndo] succeeds and holds exactly when some
    operation is active; [canRedo] is whether [globalRedo] succeeds and
    holds exactly when some entry of the log is not active. *)
Theorem getStats_predicts_history (calls : list Call) :
  let st := run calls constructor in
  canUndo (getStats st) = success (globalUndo st).1
  ∧ canRedo (getStats st) = success (globalRedo st).1
  ∧ (canUndo (getStats st) = true ↔ getActiveOperations st ≠ [])
  ∧ (canRedo (getStats st) = true ↔ getActiveOperations st ≠ operations st)
  ∧ totalOperations (getStats st) = len (operations st)
  ∧ currentIndex (getStats st) = len (getActiveOperations st) - 1.
Proof.
  intros st. assert (HI : Inv st) by apply Inv_run, Inv_constructor.
  destruct (active_take st HI) as [Htake Hlen].
  destruct HI as (Hlo & Hhi & Hmax).
  split; [|split; [|split; [|split; [|split]]]].
  - unfold globalUndo. simpl. by case (0 <=? _).
  - unfold globalRedo. simpl. by case (_ <? _).
  - simpl. rewrite <- len_zero_nil, Hlen. rewrite Z.leb_le. lia.
  - simpl. rewrite Htake, take_all_iff, Z.ltb_lt. unfold len in *. lia.
  - done.
  - simpl. lia.
Qed.

(** *** What undo and redo return *)

Lemma index_take_last {A} (l : list A) (i : Z) :
  0 ≤ i → i < len l →
  ∃ x, index l i = Some x
       ∧ take (Z.to_nat (i + 1)) l = take (Z.to_nat i) l ++ [x].
Proof.
  intros H0 Hi. unfold index, len in *.
  destruct (Z.ltb_spec i 0); [lia|].
  destruct (lookup_lt_is_Some_2 l (Z.to_nat i)) as [x Hx]; [lia|].
  exists x. split; [done|].
  replace (Z.to_nat (i + 1)) with (S (Z.to_nat i)) by lia.
  by apply take_S_r.
Qed.

Lemma globalUndo_moved st :
  Inv st →
  0 ≤ currentStateIndex st →
  ∃ op remaining,
    globalUndo st
    = (Success (Some op) remaining, setIndex (currentStateIndex st - 1) st)
    ∧ getActiveOperations st = remaining ++ [op]
    ∧ getActiveOperations (setIndex (currentStateIndex st - 1) st) = remaining.
Proof.
  intros HI Hge. destruct (active_take st HI) as [Htake _].
  destruct HI as (Hlo & Hhi & Hmax).
  destruct (index_take_last (operations st) (currentStateIndex st))
    as (op & Hop & Hsnoc); [lia..|].
  exists op, (take (Z.to_nat (currentStateIndex st)) (operations st)).
  unfold globalUndo. destruct (Z.leb_spec 0 (currentStateIndex st)); [|lia].
  simpl. rewrite Hop, Htake, Hsnoc. unfold getActiveOperations. simpl.
  replace (currentStateIndex st - 1 + 1) with (currentStateIndex st) by lia.
  by rewrite slice0_take by lia.
Qed.

Lemma globalRedo_moved st :
  Inv st →
  currentStateIndex st < len (operations st) - 1 →
  ∃ op remaining,
    globalRedo st
    = (Success (Some op) remaining, setIndex (currentStateIndex st + 1) st)
    ∧ remaining = getActiveOperations st ++ [op]
    ∧ getActiveOperations (setIndex (currentStateIndex st + 1) st) = remaining.
Proof.
  intros HI Hlt. destruct (active_take st HI) as [Htake _].
  destruct HI as (Hlo & Hhi & Hmax).
  destruct (index_take_last (operations st) (currentStateIndex st + 1))
    as (op & Hop & Hsnoc); [lia..|].
  exists op, (take (Z.to_nat (currentStateIndex st + 1 + 1)) (operations st)).
  unfold globalRedo.
  destruct (Z.ltb_spec (currentStateIndex st) (len (operations st) - 1)); [|lia].
  simpl. rewrite Hop, Htake, <- Hsnoc. unfold getActiveOperations. simpl.
  by rewrite slice0_take by lia.
Qed.

(** X3: In a well-formed log, a [globalUndo] that finds the cursor at [0] or
    later returns the operation under the cursor, never [undefined], with
    the active operations less that one; a [globalRedo] that finds the cursor
    before the last index returns the first undone operation with the active
    operations plus that one. Neither touches the log's entries. *)
Theorem history_returns_the_moved_operation st :
  Inv st →
  (0 ≤ currentStateIndex st →
   ∃ op remaining,
     (globalUndo st).1 = Success (Some op) remaining
     ∧ getActiveOperations st = remaining ++ [op]
     ∧ getActiveOperations (globalUndo st).2 = remaining
     ∧ operations (globalUndo st).2 = operations st)
  ∧ (currentStateIndex st < len (operations st) - 1 →
     ∃ op remaining,
       (globalRedo st).1 = Success (Some op) remaining
       ∧ remaining = getActiveOperations st ++ [op]
       ∧ getActiveOperations (globalRedo st).2 = remaining
       ∧ operations (globalRedo st).2 = operations st).
Proof.
  intros HI. split.
  - intros Hge.
    destruct (globalUndo_moved st HI Hge) as (op & remaining & -> & H1 & H2).
    by exists op, remaining.
  - intros Hlt.
    destruct (globalRedo_moved st HI Hlt) as (op & remaining & -> & H1 & H2).
    by exists op, remaining.
Qed.

(** X4: In a well-formed log a successful [globalUndo] is reverted by the
    [globalRedo] that follows it, and a successful [globalRedo] by the
    [globalUndo] that follows it: the state is the one before, and the two
    calls return the same operation. *)
Theorem undo_and_redo_are_inverse st :
  Inv st →
  (success (globalUndo st).1 = true →
   (globalRedo (globalUndo st).2).2 = st
   ∧ ∃ op r1 r2, (globalUndo st).1 = Success op r1
                 ∧ (globalRedo (globalUndo st).2).1 = Success op r2)
  ∧ (success (globalRedo st).1 = true →
     (globalUndo (globalRedo st).2).2 = st
     ∧ ∃ op r1 r2, (globalRedo st).1 = Success op r1
                   ∧ (globalUndo (globalRedo st).2).1 = Success op r2).
Proof.
  intros (Hlo & Hhi & Hmax). split.
  - unfold globalUndo.
    destruct (Z.leb_spec 0 (currentStateIndex st)) as [Hge|]; [|done].
    intros _. simpl. unfold globalRedo. simpl.
    destruct (Z.ltb_spec (currentStateIndex st - 1) (len (operations st) - 1));
      [|lia].
    simpl. unfold setIndex. simpl.
    replace (currentStateIndex st - 1 + 1) with (currentStateIndex st) by lia.
    split; [by destruct st|]. eauto.
  - unfold globalRedo.
    destruct (Z.ltb_spec (currentStateIndex st) (len (operations st) - 1))
      as [Hlt|]; [|done].
    intros _. simpl. unfold globalUndo. simpl.
    destruct (Z.leb_spec 0 (currentStateIndex st + 1)); [|lia].
    simpl. unfold setIndex. simpl.
    replace (currentStateIndex st + 1 - 1) with (currentStateIndex st) by lia.
    split; [by destruct st|]. eauto.
Qed.

(** *** Undoing and redoing everything *)

Lemma undos_index n st :
  -1 ≤ currentStateIndex st →
  undos n st = setIndex (Z.max (-1) (currentStateIndex st - Z.of_nat n)) st.
Proof.
  intros Hlo. induction n as [|n IH].
  - simpl. rewrite Z.max_r by lia. rewrite Z.sub_0_r. by destruct st.
  - unfold undos in *. rewrite Nat.iter_succ, IH. unfold globalUndo. simpl.
    destruct (Z.leb_spec 0 (Z.max (-1) (currentStateIndex st - Z.of_nat n)));
      unfold setIndex; simpl; f_equal; lia.
Qed.

Lemma redos_index n st :
  currentStateIndex st ≤ len (operations st) - 1 →
  redos n st
  = setIndex (Z.min (len (operations st) - 1) (currentStateIndex st + Z.of_nat n)) st.
Proof.
  intros Hhi. induction n as [|n IH].
  - simpl. rewrite Z.min_r by lia. rewrite Z.add_0_r. by destruct st.
  - unfold redos in *. rewrite Nat.iter_succ, IH. unfold globalRedo. simpl.
    destruct (Z.ltb_spec
                (Z.min (len (operations st) - 1) (currentStateIndex st + Z.of_nat n))
                (len (operations st) - 1));
      unfold setIndex; simpl; f_equal; lia.
Qed.

(** X5: From a well-formed log, as many calls to [globalUndo] as there are
    active operations, or more, leave the cursor at [-1], nothing active and
    the log's entries in place, and one more fails. As many calls to
    [globalRedo] as the log has entries then make the whole log active,
    the entries undone before included. *)
Theorem undo_all_then_redo_all (n m : nat) st :
  Inv st →
  currentStateIndex st + 1 ≤ Z.of_nat n →
  len (operations st) ≤ Z.of_nat m →
  currentStateIndex (undos n st) = -1
  ∧ getActiveOperations (undos n st) = []
  ∧ operations (undos n st) = operations st
  ∧ globalUndo (undos n st) = (Failure, undos n st)
  ∧ currentStateIndex (redos m (undos n st)) = len (operations st) - 1
  ∧ getActiveOperations (redos m (undos n st)) = operations st
  ∧ globalRedo (redos m (undos n st)) = (Failure, redos m (undos n st)).
Proof.
  intros (Hlo & Hhi & Hmax) Hn Hm.
  rewrite undos_index by done. rewrite Z.max_l by lia.
  rewrite redos_index by (simpl; lia). simpl.
  pose proof (len_nonneg (operations st)).
  rewrite Z.min_l by lia.
  split; [done|]. split.
  { unfold getActiveOperations. simpl. by rewrite slice0_take. }
  split; [done|]. split; [done|]. split; [done|]. split.
  - unfold getActiveOperations. simpl. apply slice0_all. lia.
  - unfold globalRedo. simpl. by rewrite Z.ltb_irrefl.
Qed.


(** *** The conflict classifier *)

Lemma last_filter_Some {A} (f : A → bool) (l : list A) (c : A) :
  last (List.filter f l) = Some c ↔
  ∃ l1 l2, l = l1 ++ c :: l2 ∧ f c = true ∧ Forall (λ x, f x = false) l2.
Proof.
  induction l as [|x l IH] using rev_ind.
  - simpl. split; [done|]. intros (l1 & l2 & H & _). by destruct l1.
  - rewrite List.filter_app. simpl. destruct (f x) eqn:Hx.
    + rewrite last_snoc. split.
      * intros [= <-]. exists l, []. by repeat split.
      * intros (l1 & l2 & H & Hc & Hl2).
        destruct l2 as [|y l2 _] using rev_ind.
        -- apply (app_inj_tail l l1) in H. by destruct H as [_ ->].
        -- rewrite app_comm_cons, (assoc (++)) in H.
           apply app_inj_tail in H. destruct H as [_ ->].
           apply Forall_app in Hl2. destruct Hl2 as [_ Hy].
           apply Forall_inv in Hy. simpl in Hy. congruence.
    + rewrite app_nil_r, IH. split.
      * intros (l1 & l2 & -> & Hc & Hl2). exists l1, (l2 ++ [x]).
        rewrite Forall_app, Forall_singleton.
        by rewrite <- (assoc (++)), <- app_comm_cons.
      * intros (l1 & l2 & H & Hc & Hl2).
        destruct l2 as [|y l2 _] using rev_ind.
        -- apply (app_inj_tail l l1) in H. destruct H as [_ ->]. congruence.
        -- rewrite app_comm_cons, (assoc (++)) in H.
           apply app_inj_tail in H. destruct H as [-> _].
           apply Forall_app in Hl2. destruct Hl2 as [Hl2 _]. eauto.
Qed.

Lemma filter_nil_Forall {A} (f : A → bool) (l : list A) :
  List.filter f l = [] ↔ Forall (λ x, f x = false) l.
Proof.
  induction l as [|x l IH]; simpl.
  - split; [constructor|done].
  - rewrite Forall_cons. destruct (f x); [|by rewrite IH; intuition].
    split; [done|]. by intros [? _].
Qed.

Lemma detectConflict_last st o :
  detectConflict st o = last (List.filter (contends o) (operations st)).
Proof.
  unfold detectConflict.
  change (λ op : Operation, _) with (contends o).
  set (l := List.filter (contends o) (operations st)).
  destruct (Z.ltb_spec 0 (len l)) as [Hpos|Hzero].
  - unfold index, len in *. destruct (Z.ltb_spec (Z.of_nat (length l) - 1) 0); [lia|].
    rewrite last_lookup. f_equal. lia.
  - pose proof (len_nonneg l). assert (Hl : l = []) by (apply len_zero_nil; lia).
    by rewrite Hl.
Qed.

(** X6: [detectConflict] returns the entry of the log that passes the test and
    has no entry passing it after itself, and [null] exactly when no entry
    passes. It scans the whole log, whatever the cursor is: an entry that
    was undone can still be the conflict. *)
Theorem detectConflict_finds_last_contender st o :
  (∀ c, detectConflict st o = Some c ↔
        ∃ l1 l2, operations st = l1 ++ c :: l2
                 ∧ contends o c = true
                 ∧ Forall (λ op, contends o op = false) l2)
  ∧ (detectConflict st o = None ↔
       Forall (λ op, contends o op = false) (operations st))
  ∧ (∀ i, detectConflict (setIndex i st) o = detectConflict st o).
Proof.
  split; [|split].
  - intros c. rewrite detectConflict_last. apply last_filter_Some.
  - rewrite detectConflict_last, last_None. apply filter_nil_Forall.
  - done.
Qed.

(** X7: Between two operations with numeric timestamps the test holds exactly
    when the timestamps are less than 100 apart, that is at most 99, and
    the [userId]s differ: an operation never conflicts with one of the same
    user, nor with one 100 ms or more away. *)
Theorem contends_iff o op (a b : Z) :
  get op "timestamp" = PNumber a →
  get o "timestamp" = PNumber b →
  truthy (get op "userId") = true →
  contends o op = true ↔
    (-100 < a - b < 100 ∧ get op "userId" ≠ get o "userId").
Proof.
  intros Ha Hb Hu. unfold contends, withinWindow, ToNumber.
  rewrite Ha, Hb. simpl.
  rewrite andb_true_iff, negb_true_iff, Z.ltb_lt.
  assert (Hs : strictEquals (get op "userId") (get o "userId") = false
               ↔ get op "userId" ≠ get o "userId").
  { unfold strictEquals. destruct (get op "userId") as [[]|]; try done;
      by rewrite bool_decide_eq_false. }
  rewrite Hs. split; intros [H1 H2]; (split; [lia|done]).
Qed.

(** *** What the log holds *)

Lemma wellFormed_stamp now o :
  invalid (ArgObject o) = false → wellFormed (stamp now o) = true.
Proof.
  unfold invalid, wellFormed. simpl. rewrite !get_stamp_ne by done.
  rewrite !orb_false_iff, !negb_false_iff, !andb_true_iff, negb_true_iff. tauto.
Qed.

Lemma timestamp_stamp now o :
  now ≠ 0 → truthy (get (stamp now o) "timestamp") = true.
Proof.
  intros Hnow. unfold stamp. destruct (truthy (get o "timestamp")) eqn:Ht; simpl.
  - done.
  - unfold get. rewrite lookup_insert_eq. simpl.
    by rewrite negb_true_iff, Z.eqb_neq.
Qed.

Lemma append_Forall (P : Operation → Prop) o st :
  P o → Forall P (operations st) → Forall P (operations (append o st)).
Proof.
  intros Ho Hst. unfold append.
  destruct (evict_operations (recordUser o (push o (truncate st))))
    as (-> & _ & _).
  simpl.
  assert (H : Forall P (operations (truncate st) ++ [o])).
  { apply Forall_app. split; [|by apply Forall_singleton].
    unfold truncate. case (_ <? _); [|done]. simpl. by apply Forall_take. }
  case (_ <? _); [|done]. by apply Forall_tail.
Qed.

Lemma run_Forall (P : Operation → Prop) (G : Call → Prop) :
  (∀ now o, G (AddOperation now (ArgObject o)) →
            invalid (ArgObject o) = false → P (stamp now o)) →
  (∀ nowId nowTimestamp, G (Clear nowId nowTimestamp) →
                         P (clearOperation nowId nowTimestamp)) →
  ∀ calls st,
    Forall G calls →
    Forall P (operations st) →
    Forall P (operations (run calls st)).
Proof.
  intros Hadd Hclear calls.
  induction calls as [|c calls IH]; intros st HG Hst; [done|].
  apply Forall_cons in HG. destruct HG as [Hc HG].
  simpl. apply IH; [done|].
  destruct c as [now operation| | |nowId nowTimestamp]; simpl.
  - destruct (invalid operation) eqn:Hv.
    + by rewrite addOperation_invalid.
    + destruct operation as [p|o]; [by rewrite invalid_primitive in Hv|].
      rewrite addOperation_valid by done. simpl. apply append_Forall; auto.
  - unfold globalUndo. by case (0 <=? _).
  - unfold globalRedo. by case (_ <? _).
  - apply Forall_singleton. auto.
Qed.

(** X8: Every entry of the log of a reachable state has an [id] other than
    [undefined] and a truthy [userId] and [type]; and a truthy [timestamp]
    when no call read the clock at the epoch itself. *)
Theorem logged_operations_are_well_formed (calls : list Call) :
  Forall (λ op, wellFormed op = true) (operations (run calls constructor))
  ∧ (Forall (λ c, clockRuns c = true) calls →
     Forall (λ op, truthy (get op "timestamp") = true)
       (operations (run calls constructor))).
Proof.
  split.
  - apply (run_Forall _ (λ _, True)).
    + intros now o _. apply wellFormed_stamp.
    + done.
    + by apply Forall_forall.
    + constructor.
  - intros Hclock. apply (run_Forall _ (λ c, clockRuns c = true)).
    + intros now o Hc _. apply timestamp_stamp.
      simpl in Hc. by apply negb_true_iff, Z.eqb_neq in Hc.
    + intros nowId nowTimestamp Hc. exact Hc.
    + done.
    + constructor.
Qed.


(** *** After an accepted operation *)

Lemma append_full o st :
  Inv st →
  maxOperations < currentStateIndex st + 2 →
  operations (truncate st) = operations st
  ∧ ∃ removed rest, operations st = removed :: rest.
Proof.
  intros (Hlo & Hhi & Hmax) Hfull. split.
  - unfold truncate.
    by destruct (Z.ltb_spec (currentStateIndex st) (len (operations st) - 1));
      [lia|].
  - destruct (operations st) as [|removed rest]; [|eauto].
    change (len []) with 0 in *. unfold maxOperations in *. lia.
Qed.

(** X9: In a well-formed log, an accepted operation leaves the whole log
    active: it is the last entry, the cursor is on it, [canUndo] is true and
    [canRedo] false. Below the bound the log is the entries up to the old
    cursor and the operation; at the bound (the cursor on entry 499) it is
    the old log without its first entry and the operation, still 500
    long. *)
Theorem addOperation_activates_the_log now o st :
  Inv st →
  invalid (ArgObject o) = false →
  let st' := (addOperation now (ArgObject o) st).2 in
  getActiveOperations st' = operations st'
  ∧ last (getActiveOperations st') = Some (stamp now o)
  ∧ canUndo (getStats st') = true
  ∧ canRedo (getStats st') = false
  ∧ len (operations st') = Z.min (currentStateIndex st + 2) maxOperations
  ∧ operations st' =
      (if currentStateIndex st + 2 <=? maxOperations
       then take (Z.to_nat (currentStateIndex st + 1)) (operations st)
            ++ [stamp now o]
       else tail (operations st) ++ [stamp now o]).
Proof.
  intros HI Hv st'. subst st'. rewrite addOperation_valid by done. simpl.
  set (o' := stamp now o).
  destruct (Inv_append o' st HI) as [(Hlo' & Hhi' & Hmax') Hend].
  pose proof (append_last o' st) as Hlast.
  assert (Hops : operations (append o' st) =
    if currentStateIndex st + 2 <=? maxOperations
    then take (Z.to_nat (currentStateIndex st + 1)) (operations st) ++ [o']
    else tail (operations st) ++ [o']).
  { pose proof HI as (Hlo & Hhi & Hmax).
    destruct (append_operations o' st Hlo) as [Hops _]. cbv zeta in Hops.
    rewrite len_app, len_slice0 in Hops by lia. change (len [o']) with 1 in Hops.
    destruct (Z.leb_spec (currentStateIndex st + 2) maxOperations) as [Hle|Hgt].
    - destruct (Z.ltb_spec maxOperations (currentStateIndex st + 1 + 1)); [lia|].
      rewrite Hops. by rewrite slice0_take by lia.
    - destruct (Z.ltb_spec maxOperations (currentStateIndex st + 1 + 1)); [|lia].
      rewrite Hops, slice0_all by lia.
      destruct (append_full o' st HI Hgt) as (_ & removed & rest & ->). done. }
  assert (Hact : getActiveOperations (append o' st) = operations (append o' st)).
  { unfold getActiveOperations. apply slice0_all. lia. }
  assert (Hlen : len (operations (append o' st))
                 = Z.min (currentStateIndex st + 2) maxOperations).
  { pose proof HI as (Hlo & Hhi & Hmax). rewrite Hops.
    destruct (Z.leb_spec (currentStateIndex st + 2) maxOperations) as [Hle|Hgt].
    - rewrite len_app. unfold len at 1. rewrite length_take.
      change (len [o']) with 1. unfold len in *.
      rewrite Nat.min_l, Z.min_l by lia. lia.
    - destruct (append_full o' st HI Hgt) as (_ & removed & rest & Heq).
      rewrite Heq in *. simpl. rewrite len_app. change (len [o']) with 1.
      rewrite len_cons in *. lia. }
  pose proof HI as (Hlo & Hhi & Hmax).
  split; [done|]. split; [by rewrite Hact|].
  split; [apply Z.leb_le; unfold maxOperations in *; lia|].
  split; [apply Z.ltb_ge; lia|]. done.
Qed.

Lemma append_timestamps o st :
  operationTimestamps (append o st) =
    let stored :=
      <[get o "id" := get o "timestamp"]> (operationTimestamps st) in
    if maxOperations <? len (operations (truncate st) ++ [o]) then
      match operations (truncate st) ++ [o] with
      | removed :: _ => delete (get removed "id") stored
      | [] => stored
      end
    else stored.
Proof.
  unfold append, evict. simpl.
  assert (Ht : operationTimestamps (truncate st) = operationTimestamps st)
    by (unfold truncate; by case (_ <? _)).
  destruct (maxOperations <? len (operations (truncate st) ++ [o])); simpl;
    [|by rewrite Ht].
  destruct (operations (truncate st) ++ [o]); simpl; by rewrite Ht.
Qed.

(** X10: In a well-formed log, an accepted operation enters [operationTimestamps]
    under its [id] with the timestamp it was stored with, other keys
    untouched, as long as nothing is evicted. When the log is full the
    [id] of the evicted entry is deleted after that: if the evicted entry
    and the new operation share their [id], the map has no entry for the
    new operation. *)
Theorem operationTimestamps_after_add now o st :
  Inv st →
  invalid (ArgObject o) = false →
  let st' := (addOperation now (ArgObject o) st).2 in
  (currentStateIndex st + 2 ≤ maxOperations →
   operationTimestamps st' !! get o "id" = Some (get (stamp now o) "timestamp")
   ∧ ∀ k, k ≠ get o "id" →
          operationTimestamps st' !! k = operationTimestamps st !! k)
  ∧ (maxOperations < currentStateIndex st + 2 →
     ∃ removed,
       head (operations st) = Some removed
       ∧ operationTimestamps st' =
           delete (get removed "id")
             (<[get o "id" := get (stamp now o) "timestamp"]>
                (operationTimestamps st))
       ∧ (get removed "id" = get o "id" →
          operationTimestamps st' !! get o "id" = None)).
Proof.
  intros HI Hv st'. subst st'. rewrite addOperation_valid by done. simpl.
  rewrite append_timestamps. cbv zeta.
  rewrite (get_stamp_ne now o "id") by done.
  pose proof HI as (Hlo & Hhi & Hmax).
  destruct (truncate_operations st Hlo) as (Htr & _ & _).
  assert (Hlen : len (operations (truncate st) ++ [stamp now o])
                 = currentStateIndex st + 2).
  { rewrite Htr, len_app, len_slice0 by lia. change (len [stamp now o]) with 1. lia. }
  rewrite Hlen. split.
  - intros Hle. destruct (Z.ltb_spec maxOperations (currentStateIndex st + 2)); [lia|].
    split; [apply lookup_insert_eq|]. intros k Hk. by apply lookup_insert_ne.
  - intros Hgt. destruct (Z.ltb_spec maxOperations (currentStateIndex st + 2)); [|lia].
    destruct (append_full (stamp now o) st HI Hgt) as (-> & removed & rest & Heq).
    rewrite Heq. simpl. exists removed. split; [done|]. split; [done|].
    intros <-. apply lookup_delete_eq.
Qed.

(** *** The per-user index *)

Lemma recordUser_lookup o st u :
  userOperations (recordUser o st) !! u =
    if decide (get o "userId" = u)
    then Some (default [] (userOperations st !! u) ++ [o])
    else userOperations st !! u.
Proof.
  unfold recordUser. simpl. destruct (decide (get o "userId" = u)) as [<-|Hne].
  - rewrite lookup_insert_eq.
    destruct (userOperations st !! get o "userId") eqn:Hu.
    + by rewrite Hu.
    + by rewrite lookup_insert_eq.
  - rewrite lookup_insert_ne by done.
    destruct (userOperations st !! get o "userId"); [done|].
    by rewrite lookup_insert_ne.
Qed.

Lemma append_lookup o st u :
  userOperations (append o st) !! u =
    if decide (get o "userId" = u)
    then Some (default [] (userOperations st !! u) ++ [o])
    else userOperations st !! u.
Proof.
  unfold append.
  destruct (evict_operations (recordUser o (push o (truncate st))))
    as (_ & _ & ->).
  rewrite recordUser_lookup. simpl. unfold truncate. by case (_ <? _).
Qed.

Lemma entryOf_snoc u l o :
  entryOf u (l ++ [o]) =
    if decide (get o "userId" = u)
    then Some (default [] (entryOf u l) ++ [o])
    else entryOf u l.
Proof.
  unfold entryOf. rewrite List.filter_app. simpl.
  destruct (decide (get o "userId" = u)) as [Hu|Hu].
  - rewrite bool_decide_eq_true_2 by done.
    destruct (List.filter _ l) as [|x l']; [done|].
    simpl. by destruct (l' ++ [o]) eqn:He; [destruct l'|].
  - rewrite bool_decide_eq_false_2 by done. by rewrite app_nil_r.
Qed.

Lemma run_lookup u calls st acc :
  userOperations st !! u = entryOf u acc →
  userOperations (run calls st) !! u
  = entryOf u (operationsSinceClear calls st acc).
Proof.
  revert st acc. induction calls as [|c calls IH]; intros st acc Hacc; [done|].
  simpl. apply IH.
  destruct c as [now operation| | |nowId nowTimestamp]; simpl.
  - destruct (invalid operation) eqn:Hv.
    + destruct operation; rewrite !addOperation_invalid by done; simpl;
        by rewrite app_nil_r.
    + destruct operation as [p|o]; [by rewrite invalid_primitive in Hv|].
      rewrite !addOperation_valid by done. simpl.
      by rewrite append_lookup, entryOf_snoc, Hacc.
  - rewrite app_nil_r. unfold globalUndo. by case (0 <=? _).
  - rewrite app_nil_r. unfold globalRedo. by case (_ <? _).
  - done.
Qed.

(** X11: In every reachable state [userOperations] has, under each [userId], all
    the operations of that user that [addOperation] stored since the last
    [clear], in the order they came, and no entry for a user without any:
    undo, truncation and eviction remove nothing from it. *)
Theorem userOperations_keep_everything (calls : list Call) (u : Value) :
  userOperations (run calls constructor) !! u
  = entryOf u (operationsSinceClear calls constructor []).
Proof. by apply run_lookup. Qed.


(** * The socket handlers *)

Lemma withState_same s : withState (drawingState s) s = s.
Proof. by destruct s. Qed.

Lemma strictEquals_string v x :
  strictEquals v (PString x) = true ↔ v = PString x.
Proof.
  unfold strictEquals. destruct v as [[]|]; try (by rewrite bool_decide_eq_true).
  split; [done|]. intros [=].
Qed.


Lemma onHistoryEvent_cases nowEvent nowState operation s :
  Inv (drawingState s) →
  (onHistoryEvent nowEvent nowState operation s = ([], s)
   ∧ ¬ ((member operation "type" = Some (VPrim (PString "undo"))
         ∧ 0 ≤ currentStateIndex (drawingState s))
        ∨ (member operation "type" = Some (VPrim (PString "redo"))
           ∧ currentStateIndex (drawingState s)
             < len (operations (drawingState s)) - 1)))
  ∨ (∃ moved remaining,
       member operation "type" = Some (VPrim (PString "undo"))
       ∧ 0 ≤ currentStateIndex (drawingState s)
       ∧ globalUndo (drawingState s)
         = (Success (Some moved) remaining,
            setIndex (currentStateIndex (drawingState s) - 1) (drawingState s))
       ∧ getActiveOperations (drawingState s) = remaining ++ [moved]
       ∧ getActiveOperations
           (setIndex (currentStateIndex (drawingState s) - 1) (drawingState s))
         = remaining)
  ∨ (∃ moved remaining,
       member operation "type" = Some (VPrim (PString "redo"))
       ∧ currentStateIndex (drawingState s) < len (operations (drawingState s)) - 1
       ∧ globalRedo (drawingState s)
         = (Success (Some moved) remaining,
            setIndex (currentStateIndex (drawingState s) + 1) (drawingState s))
       ∧ remaining = getActiveOperations (drawingState s) ++ [moved]
       ∧ getActiveOperations
           (setIndex (currentStateIndex (drawingState s) + 1) (drawingState s))
         = remaining).
Proof.
  intros HI. unfold onHistoryEvent.
  destruct (member operation "type") as [type|] eqn:Hm;
    [|left; split; [done|]; by intros [[? _]|[? _]]].
  destruct (strictEquals type (PString "undo")) eqn:Hu.
  { apply strictEquals_string in Hu. subst type.
    destruct (Z.le_gt_cases 0 (currentStateIndex (drawingState s))) as [Hge|Hlt].
    - right. left.
      destruct (globalUndo_moved _ HI Hge) as (moved & remaining & H).
      exists moved, remaining. by repeat split; try apply H.
    - left. unfold globalUndo.
      destruct (Z.leb_spec 0 (currentStateIndex (drawingState s))); [lia|].
      rewrite withState_same. split; [done|].
      intros [[_ ?]|[[=] _]]. lia. }
  destruct (strictEquals type (PString "redo")) eqn:Hr.
  { apply strictEquals_string in Hr. subst type.
    destruct (Z.lt_ge_cases (currentStateIndex (drawingState s))
                (len (operations (drawingState s)) - 1)) as [Hlt|Hge].
    - right. right.
      destruct (globalRedo_moved _ HI Hlt) as (moved & remaining & H).
      exists moved, remaining. by repeat split; try apply H.
    - left. unfold globalRedo.
      destruct (Z.ltb_spec (currentStateIndex (drawingState s))
                  (len (operations (drawingState s)) - 1)); [lia|].
      rewrite withState_same. split; [done|].
      intros [[[=] _]|[_ ?]]. lia. }
  left. split; [done|].
  intros [[[= ->] _]|[[= ->] _]]; [by rewrite (proj2 (strictEquals_string _ _)) in Hu|
                                   by rewrite (proj2 (strictEquals_string _ _)) in Hr].
Qed.

(** X13: On a well-formed log the [history-event] handler either emits nothing
    and changes nothing, or emits exactly three messages: the history event
    to everyone, carrying the operation that was undone or redone; the
    snapshot of the new state to everyone; the acknowledgement to the
    sender. It does the second exactly when the message's [type] is
    ["undo"] and something is active, or ["redo"] and something is undone;
    the active operations then lose, or gain, the operation the event
    carries. A message that is [null] or [undefined], or of another type,
    is dropped. *)
Theorem history_event_is_silent_or_complete nowEvent nowState operation s :
  Inv (drawingState s) →
  let out := (onHistoryEvent nowEvent nowState operation s).1 in
  let s' := (onHistoryEvent nowEvent nowState operation s).2 in
  (out = [] ∧ s' = s
   ∧ ¬ ((member operation "type" = Some (VPrim (PString "undo"))
         ∧ 0 ≤ currentStateIndex (drawingState s))
        ∨ (member operation "type" = Some (VPrim (PString "redo"))
           ∧ currentStateIndex (drawingState s)
             < len (operations (drawingState s)) - 1)))
  ∨ (∃ type moved,
       member operation "type" = Some type
       ∧ out = [ {| audience := Everyone; event := "history-event";
                    payload := HistoryEvent type (prop operation "userId")
                                 (Some moved) nowEvent |};
                 {| audience := Everyone; event := "canvas-state";
                    payload := Snapshot (getCanvasState nowState (drawingState s')) |};
                 {| audience := Sender; event := "operation-ack";
                    payload := OperationAck (prop operation "id") |} ]
       ∧ connectedUsers s' = connectedUsers s
       ∧ ((type = PString "undo"
           ∧ getActiveOperations (drawingState s)
             = getActiveOperations (drawingState s') ++ [moved])
          ∨ (type = PString "redo"
             ∧ getActiveOperations (drawingState s')
               = getActiveOperations (drawingState s) ++ [moved]))).
Proof.
  intros HI out s'. subst out s'.
  destruct (onHistoryEvent_cases nowEvent nowState operation s HI)
    as [[-> Hno]|[(moved & remaining & Hm & Hge & Hundo & Hact & Hrem)
                 |(moved & remaining & Hm & Hlt & Hredo & Hact & Hrem)]].
  - by left.
  - right. exists (VPrim (PString "undo")), moved.
    unfold onHistoryEvent. rewrite Hm. simpl. rewrite Hundo. simpl.
    split; [done|]. split; [done|]. split; [done|]. left.
    by rewrite Hrem.
  - right. exists (VPrim (PString "redo")), moved.
    unfold onHistoryEvent. rewrite Hm. simpl. rewrite Hredo. simpl.
    split; [done|]. split; [done|]. split; [done|]. right.
    by rewrite Hrem.
Qed.

(** X14: The [clear-canvas] handler resets the log whatever message it gets:
    afterwards the only active operation is the synthetic one. When the
    message is [null] or [undefined] it has emitted nothing by then, so no
    client is told; otherwise it emits the clear event to everyone and the
    acknowledgement to the sender. *)
Theorem clear_canvas_clears_before_it_reads nowId nowTimestamp nowEvent operation s :
  let out := (onClearCanvas nowId nowTimestamp nowEvent operation s).1 in
  let s' := (onClearCanvas nowId nowTimestamp nowEvent operation s).2 in
  drawingState s' = (clear nowId nowTimestamp (drawingState s)).2
  ∧ getActiveOperations (drawingState s') = [clearOperation nowId nowTimestamp]
  ∧ connectedUsers s' = connectedUsers s
  ∧ (operation = ArgPrimitive PUndefined ∨ operation = ArgPrimitive PNull →
     out = [])
  ∧ (operation ≠ ArgPrimitive PUndefined →
     operation ≠ ArgPrimitive PNull →
     out = [ {| audience := Everyone; event := "clear-canvas";
                payload := ClearCanvas (prop operation "userId") nowEvent |};
             {| audience := Sender; event := "operation-ack";
                payload := OperationAck (prop operation "id") |} ]).
Proof.
  intros out s'. subst out s'. unfold onClearCanvas. simpl.
  split; [by destruct (member operation "userId")|].
  split; [by destruct (member operation "userId")|].
  split; [by destruct (member operation "userId")|].
  split.
  - by intros [-> | ->].
  - intros Hu Hn. by destruct operation as [[]|].
Qed.

(** X15: A socket that is not yet in [connectedUsers] is counted on connection
    and sent the current snapshot; when it disconnects the count emitted is
    the one before it came and the server is in the state it was in. *)
Theorem connection_then_disconnect socket nowConnected nowState s :
  connectedUsers s !! socket = None →
  onConnection socket nowConnected nowState s
  = ([ {| audience := Everyone; event := "user-count";
          payload := UserCount (S (size (connectedUsers s))) |};
       {| audience := Sender; event := "canvas-state";
          payload := Snapshot (getCanvasState nowState (drawingState s)) |} ],
     (onConnection socket nowConnected nowState s).2)
  ∧ onDisconnect socket (onConnection socket nowConnected nowState s).2
    = ([ {| audience := Everyone; event := "user-count";
            payload := UserCount (size (connectedUsers s)) |} ],
       s).
Proof.
  intros Hnew. unfold onConnection, onDisconnect. simpl.
  rewrite map_size_insert_None by done.
  rewrite delete_insert_eq, delete_id by done.
  split; [done|]. by destruct s.
Qed.

Lemma snapshot_sound who now st :
  Inv st →
  sound {| audience := who; event := "canvas-state";
           payload := Snapshot (getCanvasState now st) |}.
Proof.
  intros HI. destruct (active_take st HI) as [_ Hlen].
  destruct HI as (Hlo & Hhi & Hmax). unfold maxOperations in Hmax.
  unfold sound. simpl. rewrite Hlen. split; lia.
Qed.

Ltac each_emission :=
  repeat (apply Forall_cons; split); try apply Forall_nil;
  try (by apply snapshot_sound); try done; try (by eexists).

Lemma handle_sound socket m s :
  Inv (drawingState s) →
  Inv (drawingState (handle socket m s).2) ∧ Forall sound (handle socket m s).1.
Proof.
  intros HI.
  destruct m as [nowConnected nowState|now operation|batch
                |nowEvent nowState operation
                |nowId nowTimestamp nowEvent operation|now|]; simpl.
  - split; [done|]. each_emission.
  - unfold onDrawPath.
    pose proof (Inv_addOperation now operation _ HI) as HI'.
    destruct (addOperation now operation (drawingState s)) as [[] st];
      [destruct operation|]; simpl; (split; [done|]); each_emission.
  - split; [done|]. each_emission.
  - destruct (onHistoryEvent_cases nowEvent nowState operation s HI)
      as [[-> _]|[(moved & remaining & Hm & Hge & Hundo & _)
                 |(moved & remaining & Hm & Hlt & Hredo & _)]].
    + by split.
    + unfold onHistoryEvent. rewrite Hm. simpl. rewrite Hundo. simpl.
      assert (HI' : Inv (globalUndo (drawingState s)).2) by by apply Inv_globalUndo.
      rewrite Hundo in HI'. split; [done|]. each_emission.
    + unfold onHistoryEvent. rewrite Hm. simpl. rewrite Hredo. simpl.
      assert (HI' : Inv (globalRedo (drawingState s)).2) by by apply Inv_globalRedo.
      rewrite Hredo in HI'. split; [done|]. each_emission.
  - unfold onClearCanvas. simpl.
    pose proof (Inv_clear nowId nowTimestamp (drawingState s)) as HI'.
    destruct (member operation "userId"); simpl; (split; [done|]); each_emission.
  - split; [done|]. each_emission.
  - split; [done|]. each_emission.
Qed.

(** X16: Whatever messages arrive, on whatever sockets and in whatever order,
    the log stays within its bounds, every snapshot the server emits has
    exactly [currentIndex + 1] operations and at most 500, and every
    history event it emits carries an operation. *)
Theorem every_emission_is_sound (messages : list (string * Incoming)) :
  Inv (drawingState (serve messages listening).2)
  ∧ Forall sound (serve messages listening).1.
Proof.
  assert (H : ∀ s, Inv (drawingState s) →
                   Inv (drawingState (serve messages s).2)
                   ∧ Forall sound (serve messages s).1).
  { induction messages as [|[socket m] messages IH]; intros s HI; [by split|].
    simpl. destruct (handle_sound socket m s HI) as [HI' Hout].
    destruct (handle socket m s) as [out s']. simpl in *.
    destruct (IH s' HI') as [HI'' Hout'].
    destruct (serve messages s') as [out' s'']. simpl in *.
    split; [done|]. by apply Forall_app. }
  apply H, Inv_constructor.
Qed.

End Host.

(** * The client's layer history *)

Section CanvasLayers.

Context {ImageData : Type}.
Implicit Types (c : Canvas.CanvasManager ImageData) (imageData : ImageData).

Lemma saveState_shape imageData c :
  -1 ≤ Canvas.currentLayerIndex c →
  Canvas.currentLayerIndex c ≤ len (Canvas.layers c) - 1 →
  len (Canvas.layers c) ≤ Canvas.maxLayers →
  Canvas.layers (Canvas.saveState imageData c) =
    (if Canvas.currentLayerIndex c + 2 <=? Canvas.maxLayers
     then take (Z.to_nat (Canvas.currentLayerIndex c + 1)) (Canvas.layers c)
          ++ [imageData]
     else tail (Canvas.layers c) ++ [imageData])
  ∧ Canvas.currentLayerIndex (Canvas.saveState imageData c)
    = len (Canvas.layers (Canvas.saveState imageData c)) - 1
  ∧ len (Canvas.layers (Canvas.saveState imageData c))
    = Z.min (Canvas.currentLayerIndex c + 2) Canvas.maxLayers.
Proof.
  intros Hlo Hhi Hmax. unfold Canvas.saveState.
  assert (Hlen : len (slice0 (Canvas.layers c) (Canvas.currentLayerIndex c + 1)
                      ++ [imageData]) = Canvas.currentLayerIndex c + 2).
  { rewrite len_app, len_slice0 by lia. change (len [imageData]) with 1. lia. }
  rewrite Hlen.
  destruct (Z.ltb_spec Canvas.maxLayers (Canvas.currentLayerIndex c + 2)) as [Hfull|Hroom];
    destruct (Z.leb_spec (Canvas.currentLayerIndex c + 2) Canvas.maxLayers);
    try lia; simpl.
  - rewrite slice0_all by lia.
    destruct (Canvas.layers c) as [|x l] eqn:Hl.
    + change (len []) with 0 in *. unfold Canvas.maxLayers in *. lia.
    + simpl. split; [done|]. rewrite len_app. change (len [imageData]) with 1.
      rewrite len_cons in Hhi, Hmax. split; lia.
  - rewrite slice0_take by lia. split; [done|]. rewrite <- slice0_take by lia.
    rewrite Hlen. split; lia.
Qed.

Lemma Inv_saveState imageData c :
  -1 ≤ Canvas.currentLayerIndex c →
  Canvas.currentLayerIndex c ≤ len (Canvas.layers c) - 1 →
  len (Canvas.layers c) ≤ Canvas.maxLayers →
  Canvas.Inv (Canvas.saveState imageData c).
Proof.
  intros Hlo Hhi Hmax.
  destruct (saveState_shape imageData c Hlo Hhi Hmax) as (_ & Hidx & Hlen).
  unfold Canvas.Inv. rewrite Hidx, Hlen. unfold Canvas.maxLayers in *. lia.
Qed.

Lemma Inv_canvas_constructor imageData : Canvas.Inv (Canvas.constructor imageData).
Proof.
  apply Inv_saveState; simpl; change (len []) with 0;
    unfold Canvas.maxLayers; lia.
Qed.

Lemma index_is_Some {A} (l : list A) i : 0 ≤ i → i < len l → is_Some (index l i).
Proof.
  intros H0 Hi. unfold index, len in *. destruct (Z.ltb_spec i 0); [lia|].
  apply lookup_lt_is_Some_2. lia.
Qed.

Lemma canvas_undo_moves c :
  Canvas.Inv c →
  0 < Canvas.currentLayerIndex c →
  ∃ imageData,
    index (Canvas.layers c) (Canvas.currentLayerIndex c - 1) = Some imageData
    ∧ Canvas.undo c
      = (Canvas.Returned true (Some imageData),
         {| Canvas.layers := Canvas.layers c;
            Canvas.currentLayerIndex := Canvas.currentLayerIndex c - 1 |}).
Proof.
  intros (Hlo & Hhi & Hmax) Hpos.
  destruct (index_is_Some (Canvas.layers c) (Canvas.currentLayerIndex c - 1))
    as [imageData Hi]; [lia..|].
  exists imageData. split; [done|]. unfold Canvas.undo.
  destruct (Z.ltb_spec 0 (Canvas.currentLayerIndex c)); [|lia].
  simpl. by rewrite Hi.
Qed.

Lemma canvas_redo_moves c :
  Canvas.Inv c →
  Canvas.currentLayerIndex c < len (Canvas.layers c) - 1 →
  ∃ imageData,
    index (Canvas.layers c) (Canvas.currentLayerIndex c + 1) = Some imageData
    ∧ Canvas.redo c
      = (Canvas.Returned true (Some imageData),
         {| Canvas.layers := Canvas.layers c;
            Canvas.currentLayerIndex := Canvas.currentLayerIndex c + 1 |}).
Proof.
  intros (Hlo & Hhi & Hmax) Hlt.
  destruct (index_is_Some (Canvas.layers c) (Canvas.currentLayerIndex c + 1))
    as [imageData Hi]; [lia..|].
  exists imageData. split; [done|]. unfold Canvas.redo.
  destruct (Z.ltb_spec (Canvas.currentLayerIndex c) (len (Canvas.layers c) - 1));
    [|lia].
  simpl. by rewrite Hi.
Qed.

Lemma Inv_canvas_undo c : Canvas.Inv c → Canvas.Inv (Canvas.undo c).2.
Proof.
  intros HI. unfold Canvas.undo.
  destruct (Z.ltb_spec 0 (Canvas.currentLayerIndex c)); [|done].
  destruct HI as (Hlo & Hhi & Hmax). unfold Canvas.Inv. simpl. lia.
Qed.

Lemma Inv_canvas_redo c : Canvas.Inv c → Canvas.Inv (Canvas.redo c).2.
Proof.
  intros HI. unfold Canvas.redo.
  destruct (Z.ltb_spec (Canvas.currentLayerIndex c) (len (Canvas.layers c) - 1));
    [|done].
  destruct HI as (Hlo & Hhi & Hmax). unfold Canvas.Inv. simpl. lia.
Qed.

Lemma Inv_canvas_run calls c : Canvas.Inv c → Canvas.Inv (Canvas.run calls c).
Proof.
  revert c. induction calls as [|call calls IH]; intros c HI; [done|].
  simpl. apply IH. destruct call as [imageData| |]; simpl.
  - destruct HI as (Hlo & Hhi & Hmax). apply Inv_saveState; lia.
  - by apply Inv_canvas_undo.
  - by apply Inv_canvas_redo.
Qed.

(** X17: After the constructor and any calls to [saveState], [undo] and [redo],
    the index is on a layer, [0 ≤ currentLayerIndex < layers.length], there
    are at most 50 layers, and neither [undo] nor [redo] can hand
    [undefined] to [putImageData]. *)
Theorem layers_stay_in_bounds (first : ImageData) (calls : list (Canvas.Call ImageData)) :
  let c := Canvas.run calls (Canvas.constructor first) in
  0 ≤ Canvas.currentLayerIndex c
  ∧ Canvas.currentLayerIndex c < len (Canvas.layers c)
  ∧ len (Canvas.layers c) ≤ 50
  ∧ is_Some (index (Canvas.layers c) (Canvas.currentLayerIndex c))
  ∧ (Canvas.undo c).1 ≠ Canvas.TypeError
  ∧ (Canvas.redo c).1 ≠ Canvas.TypeError.
Proof.
  intros c.
  assert (HI : Canvas.Inv c) by apply Inv_canvas_run, Inv_canvas_constructor.
  pose proof HI as (Hlo & Hhi & Hmax). unfold Canvas.maxLayers in Hmax.
  split; [done|]. split; [lia|]. split; [done|].
  split; [apply index_is_Some; lia|]. split.
  - destruct (Z.lt_ge_cases 0 (Canvas.currentLayerIndex c)) as [Hpos|Hzero].
    + by destruct (canvas_undo_moves c HI Hpos) as (imageData & _ & ->).
    + unfold Canvas.undo.
      by destruct (Z.ltb_spec 0 (Canvas.currentLayerIndex c)); [lia|].
  - destruct (Z.lt_ge_cases (Canvas.currentLayerIndex c) (len (Canvas.layers c) - 1))
      as [Hlt|Hge].
    + by destruct (canvas_redo_moves c HI Hlt) as (imageData & _ & ->).
    + unfold Canvas.redo.
      by destruct (Z.ltb_spec (Canvas.currentLayerIndex c)
                     (len (Canvas.layers c) - 1)); [lia|].
Qed.

(** X18: When the index is on a layer, [saveState] makes the saved image the
    last and the current layer, so that [canRedo] is false and [canUndo]
    true. With room left the layers are those up to the old index and the
    image, any layer after the old index being dropped; with 50 layers and
    the index on the last, the first layer is dropped instead. *)
Theorem saveState_drops_redo_and_oldest imageData c :
  Canvas.Inv c →
  let c' := Canvas.saveState imageData c in
  Canvas.layers c' =
    (if Canvas.currentLayerIndex c + 2 <=? 50
     then take (Z.to_nat (Canvas.currentLayerIndex c + 1)) (Canvas.layers c)
          ++ [imageData]
     else tail (Canvas.layers c) ++ [imageData])
  ∧ index (Canvas.layers c') (Canvas.currentLayerIndex c') = Some imageData
  ∧ last (Canvas.layers c') = Some imageData
  ∧ Canvas.canRedo c' = false
  ∧ Canvas.canUndo c' = true
  ∧ len (Canvas.layers c') = Z.min (Canvas.currentLayerIndex c + 2) 50.
Proof.
  intros (Hlo & Hhi & Hmax) c'. subst c'.
  destruct (saveState_shape imageData c) as (Hl & Hidx & Hlen); [lia..|].
  assert (Hlast : last (Canvas.layers (Canvas.saveState imageData c))
                  = Some imageData)
    by (rewrite Hl; case (_ <=? _); apply last_snoc).
  split; [done|]. split.
  { rewrite last_lookup in Hlast. unfold index. rewrite Hidx.
    pose proof (len_nonneg (Canvas.layers (Canvas.saveState imageData c))).
    unfold Canvas.maxLayers in *.
    destruct (Z.ltb_spec (len (Canvas.layers (Canvas.saveState imageData c)) - 1) 0);
      [lia|].
    rewrite <- Hlast. f_equal. unfold len. lia. }
  split; [done|]. split.
  { unfold Canvas.canRedo. rewrite Hidx. apply Z.ltb_irrefl. }
  split; [|done].
  unfold Canvas.canUndo. rewrite Hidx, Hlen. apply Z.ltb_lt.
  unfold Canvas.maxLayers. lia.
Qed.

Lemma canvas_undos_index n c :
  0 ≤ Canvas.currentLayerIndex c →
  Canvas.undos n c
  = {| Canvas.layers := Canvas.layers c;
       Canvas.currentLayerIndex :=
         Z.max 0 (Canvas.currentLayerIndex c - Z.of_nat n) |}.
Proof.
  intros Hlo. induction n as [|n IH].
  - simpl. rewrite Z.max_r by lia. rewrite Z.sub_0_r. by destruct c.
  - unfold Canvas.undos in *. rewrite Nat.iter_succ, IH. unfold Canvas.undo. simpl.
    destruct (Z.ltb_spec 0 (Z.max 0 (Canvas.currentLayerIndex c - Z.of_nat n)));
      simpl; f_equal; lia.
Qed.

(** X19: The client's [undo] succeeds exactly when [canUndo] holds, puts the
    layer before the current one on the canvas, and is reverted by [redo],
    which puts the layer that was current back. It stops at layer [0]: after
    as many calls as the index, 49 at most, the index is [0], [canUndo] is
    false, [undo] returns [false] and changes nothing, and all layers are
    still there. *)
Theorem client_undo_stops_at_first_layer (n : nat) c :
  Canvas.Inv c →
  (Canvas.canUndo c = true →
   ∃ before current,
     index (Canvas.layers c) (Canvas.currentLayerIndex c - 1) = Some before
     ∧ index (Canvas.layers c) (Canvas.currentLayerIndex c) = Some current
     ∧ (Canvas.undo c).1 = Canvas.Returned true (Some before)
     ∧ Canvas.redo (Canvas.undo c).2 = (Canvas.Returned true (Some current), c))
  ∧ (Canvas.canUndo c = false → Canvas.undo c = (Canvas.Returned false None, c))
  ∧ (Canvas.currentLayerIndex c ≤ Z.of_nat n →
     Canvas.currentLayerIndex (Canvas.undos n c) = 0
     ∧ Canvas.layers (Canvas.undos n c) = Canvas.layers c
     ∧ Canvas.canUndo (Canvas.undos n c) = false
     ∧ Canvas.undo (Canvas.undos n c)
       = (Canvas.Returned false None, Canvas.undos n c))
  ∧ Canvas.currentLayerIndex (Canvas.undos 49 c) = 0.
Proof.
  intros HI. pose proof HI as (Hlo & Hhi & Hmax).
  split; [|split; [|split]].
  - unfold Canvas.canUndo. rewrite Z.ltb_lt. intros Hpos.
    destruct (canvas_undo_moves c HI Hpos) as (before & Hb & Hundo).
    destruct (index_is_Some (Canvas.layers c) (Canvas.currentLayerIndex c))
      as [current Hc]; [lia..|].
    exists before, current. rewrite Hundo. simpl.
    split; [done|]. split; [done|]. split; [done|].
    unfold Canvas.redo. simpl.
    destruct (Z.ltb_spec (Canvas.currentLayerIndex c - 1)
                (len (Canvas.layers c) - 1)); [|lia].
    replace (Canvas.currentLayerIndex c - 1 + 1)
      with (Canvas.currentLayerIndex c) by lia.
    rewrite Hc. simpl. by destruct c.
  - unfold Canvas.canUndo, Canvas.undo. by intros ->.
  - intros Hn. rewrite canvas_undos_index by done.
    rewrite Z.max_l by lia. by repeat split.
  - rewrite canvas_undos_index by done. simpl. unfold Canvas.maxLayers in *. lia.
Qed.

End CanvasLayers.

(** * The theorems at concrete inputs *)


(** The 501st operation evicts the first and the bounds still hold. *)
Lemma cursor_bounds_and_retention_witness :
  Inv (addOperation decimalToNumber plainObject 2000
         (ArgObject (drawing 1 "B" 2000))
         (run decimalToNumber plainObject
            (replicate 500 (AddOperation 1000 (ArgObject (drawing 0 "A" 1000))))
            constructor)).2.
Proof.
  refine (proj2 (proj2 (proj2 (proj2 (proj2
    (proj2
       (cursor_bounds_and_retention decimalToNumber plainObject
          (replicate 500 (AddOperation 1000 (ArgObject (drawing 0 "A" 1000)))))
       2000 (drawing 1 "B" 2000) _ _)))))); by vm_compute.
Defined.


Lemma failing_calls_leave_state_unchanged_witness :
  addOperation decimalToNumber plainObject 1000
    (ArgObject (delete "userId" (drawing 0 "A" 1000))) constructor
  = (false, constructor)
  ∧ globalUndo constructor = (Failure, constructor)
  ∧ globalRedo constructor = (Failure, constructor).
Proof.
  pose proof (failing_calls_leave_state_unchanged decimalToNumber plainObject)
    as (Hadd & Hundo & Hredo & _).
  split; [|split].
  - apply Hadd. right. left. reflexivity.
  - apply Hundo. reflexivity.
  - apply Hredo. reflexivity.
Defined.


Lemma addOperation_timestamp_witness :
  last (operations
          (addOperation decimalToNumber plainObject 1700000000000
             (ArgObject (untimed 0 "A")) constructor).2)
  = Some (drawing 0 "A" 1700000000000).
Proof.
  exact (proj1
    (addOperation_timestamp decimalToNumber plainObject 1700000000000
       (untimed 0 "A") constructor eq_refl)).
Defined.

Lemma addOperation_rejects_iff_witness :
  (addOperation decimalToNumber plainObject 1000
     (ArgObject (<["id" := VPrim PNull]> (drawing 0 "A" 1000))) constructor).1
  = true
  ∧ (addOperation decimalToNumber plainObject 1000
       (ArgObject (drawing 0 "" 1000)) constructor).1
    = false.
Proof.
  pose proof (addOperation_rejects_iff decimalToNumber plainObject 1000
                (ArgPrimitive PNull) constructor) as (_ & Hid & Hempty).
  split.
  - apply Hid; [left|..]; reflexivity.
  - apply Hempty. left. reflexivity.
Defined.

(** Four draws, two undos, a fifth draw: the log is the first two and the
    fifth, the cursor is [2], and redo fails. *)
Example history_scenario :
  let st :=
    run decimalToNumber plainObject
      [AddOperation 1000 (ArgObject (drawing 1 "A" 1000));
       AddOperation 1050 (ArgObject (drawing 2 "B" 1050));
       AddOperation 1200 (ArgObject (drawing 3 "A" 1200));
       AddOperation 1250 (ArgObject (drawing 4 "B" 1250));
       GlobalUndo; GlobalUndo;
       AddOperation 1300 (ArgObject (drawing 5 "A" 1300))]
      constructor in
  operations st = [drawing 1 "A" 1000; drawing 2 "B" 1050; drawing 5 "A" 1300]
  ∧ currentStateIndex st = 2
  ∧ globalRedo st = (Failure, st).
Proof. by vm_compute. Qed.

(** * Where the code departs from the specification *)

(** A client-supplied timestamp of [0] is replaced by the server's clock. *)
Lemma supplied_timestamp_zero_is_replaced :
  drawing 0 "A" 0 !! "timestamp" = Some (VPrim (PNumber 0))
  ∧ (addOperation decimalToNumber plainObject 1700000000000
       (ArgObject (drawing 0 "A" 0)) constructor).1 = true
  ∧ last (operations
            (addOperation decimalToNumber plainObject 1700000000000
               (ArgObject (drawing 0 "A" 0)) constructor).2)
    = Some (drawing 0 "A" 1700000000000)
  ∧ get (drawing 0 "A" 1700000000000) "timestamp" ≠ get (drawing 0 "A" 0) "timestamp".
Proof. repeat split. by vm_compute. Qed.

(** After one accepted operation and a [clear], one user has been accepted
    since the start and [activeUsers] is [0]. *)
Lemma activeUsers_forgets_at_clear :
  usersEver decimalToNumber plainObject
    [AddOperation 1000 (ArgObject (drawing 0 "A" 1000)); Clear 2000 2000]
    constructor
  = [VPrim (PString "A")]
  ∧ activeUsers
      (getStats
         (run decimalToNumber plainObject
            [AddOperation 1000 (ArgObject (drawing 0 "A" 1000)); Clear 2000 2000]
            constructor))
    ≠ distinct
        (usersEver decimalToNumber plainObject
           [AddOperation 1000 (ArgObject (drawing 0 "A" 1000)); Clear 2000 2000]
           constructor).
Proof. split; by vm_compute. Qed.

(** * The further properties at concrete inputs *)

(** Two draws by two users; and the same followed by one undo. *)
Local Abbreviation twoDraws :=
  (run decimalToNumber plainObject
     [AddOperation 1000 (ArgObject (drawing 0 "A" 1000));
      AddOperation 1050 (ArgObject (drawing 0 "B" 1050))]
     constructor).

Local Abbreviation oneUndone :=
  (run decimalToNumber plainObject
     [AddOperation 1000 (ArgObject (drawing 0 "A" 1000));
      AddOperation 1050 (ArgObject (drawing 0 "B" 1050));
      GlobalUndo]
     constructor).

Lemma getStats_predicts_history_witness :
  getActiveOperations twoDraws ≠ [] ∧ getActiveOperations oneUndone ≠ operations oneUndone.
Proof.
  split.
  - pose proof (getStats_predicts_history decimalToNumber plainObject
      [AddOperation 1000 (ArgObject (drawing 0 "A" 1000));
       AddOperation 1050 (ArgObject (drawing 0 "B" 1050))]) as H.
    cbv zeta in H. destruct H as (_ & _ & [H _] & _). apply H. reflexivity.
  - pose proof (getStats_predicts_history decimalToNumber plainObject
      [AddOperation 1000 (ArgObject (drawing 0 "A" 1000));
       AddOperation 1050 (ArgObject (drawing 0 "B" 1050));
       GlobalUndo]) as H.
    cbv zeta in H. destruct H as (_ & _ & _ & [H _] & _). apply H. reflexivity.
Defined.

Lemma history_returns_the_moved_operation_witness :
  ∃ op remaining,
    (globalUndo twoDraws).1 = Success (Some op) remaining
    ∧ getActiveOperations twoDraws = remaining ++ [op]
    ∧ getActiveOperations (globalUndo twoDraws).2 = remaining
    ∧ operations (globalUndo twoDraws).2 = operations twoDraws.
Proof.
  refine (proj1 (history_returns_the_moved_operation twoDraws _) _).
  - apply Inv_run, Inv_constructor.
  - by vm_compute.
Defined.

Lemma undo_and_redo_are_inverse_witness :
  (globalRedo (globalUndo twoDraws).2).2 = twoDraws
  ∧ (globalUndo (globalRedo oneUndone).2).2 = oneUndone.
Proof.
  split.
  - refine (proj1 (proj1 (undo_and_redo_are_inverse twoDraws _) eq_refl)).
    apply Inv_run, Inv_constructor.
  - refine (proj1 (proj2 (undo_and_redo_are_inverse oneUndone _) eq_refl)).
    apply Inv_run, Inv_constructor.
Defined.

Lemma undo_all_then_redo_all_witness :
  getActiveOperations (undos 5 oneUndone) = []
  ∧ getActiveOperations (redos 5 (undos 5 oneUndone)) = operations oneUndone.
Proof.
  pose proof (undo_all_then_redo_all 5 5 oneUndone) as H.
  destruct H as (_ & H1 & _ & _ & _ & H2 & _).
  - apply Inv_run, Inv_constructor.
  - by vm_compute.
  - by vm_compute.
  - by split.
Defined.

(** The second draw is undone, and is still the conflict of a third one
    made 10 ms after it by the other user. *)
Lemma detectConflict_finds_last_contender_witness :
  detectConflict decimalToNumber plainObject oneUndone (drawing 1 "A" 1060)
  = Some (drawing 0 "B" 1050).
Proof.
  apply (proj1 (detectConflict_finds_last_contender decimalToNumber plainObject
                  oneUndone (drawing 1 "A" 1060))).
  exists [drawing 0 "A" 1000], []. split; [reflexivity|]. split; [reflexivity|].
  constructor.
Defined.

Lemma contends_iff_witness :
  contends decimalToNumber plainObject (drawing 1 "A" 1099) (drawing 0 "B" 1000)
  = true.
Proof.
  apply (proj2 (contends_iff decimalToNumber plainObject
                  (drawing 1 "A" 1099) (drawing 0 "B" 1000) 1000 1099
                  eq_refl eq_refl eq_refl)).
  split; [lia|discriminate].
Defined.

Lemma logged_operations_are_well_formed_witness :
  Forall (λ op : Operation, truthy (get op "timestamp") = true)
    (operations
       (run decimalToNumber plainObject
          [AddOperation 1000 (ArgObject (untimed 0 "A")); Clear 2000 2001;
           AddOperation 3000 (ArgObject (drawing 1 "B" 2500))]
          constructor)).
Proof.
  apply (proj2 (logged_operations_are_well_formed decimalToNumber plainObject
                  [AddOperation 1000 (ArgObject (untimed 0 "A")); Clear 2000 2001;
                   AddOperation 3000 (ArgObject (drawing 1 "B" 2500))])).
  repeat constructor.
Defined.

Lemma addOperation_activates_the_log_witness :
  canRedo
    (getStats
       (addOperation decimalToNumber plainObject 1100
          (ArgObject (drawing 1 "A" 1100)) oneUndone).2)
  = false.
Proof.
  refine (proj1 (proj2 (proj2 (proj2
    (addOperation_activates_the_log decimalToNumber plainObject 1100
       (drawing 1 "A" 1100) oneUndone _ eq_refl))))).
  apply Inv_run, Inv_constructor.
Defined.

Lemma operationTimestamps_after_add_witness :
  operationTimestamps
    (addOperation decimalToNumber plainObject 1000
       (ArgObject (untimed 7 "A")) constructor).2
  !! VPrim (PNumber 7)
  = Some (VPrim (PNumber 1000)).
Proof.
  refine (proj1 (proj1
    (operationTimestamps_after_add decimalToNumber plainObject 1000
       (untimed 7 "A") constructor Inv_constructor eq_refl) _)).
  by vm_compute.
Defined.


(** An undo request on the two draws: three emissions. *)
Lemma history_event_is_silent_or_complete_witness :
  length
    (onHistoryEvent 1100 1101
       (ArgObject (<["type" := VPrim (PString "undo")]> (untimed 3 "A")))
       {| drawingState := twoDraws; connectedUsers := ∅ |}).1
  = 3%nat.
Proof.
  destruct (history_event_is_silent_or_complete 1100 1101
              (ArgObject (<["type" := VPrim (PString "undo")]> (untimed 3 "A")))
              {| drawingState := twoDraws; connectedUsers := ∅ |})
    as [(_ & _ & Hno)|(type & moved & _ & H & _)].
  - apply Inv_run, Inv_constructor.
  - exfalso. apply Hno. left. split; [reflexivity|by vm_compute].
  - by rewrite H.
Defined.

Lemma clear_canvas_clears_before_it_reads_witness :
  (onClearCanvas 2000 2001 2002 (ArgPrimitive PNull)
     {| drawingState := twoDraws; connectedUsers := ∅ |}).1 = []
  ∧ getActiveOperations
      (drawingState
         (onClearCanvas 2000 2001 2002 (ArgPrimitive PNull)
            {| drawingState := twoDraws; connectedUsers := ∅ |}).2)
    = [clearOperation 2000 2001].
Proof.
  pose proof (clear_canvas_clears_before_it_reads 2000 2001 2002
                (ArgPrimitive PNull)
                {| drawingState := twoDraws; connectedUsers := ∅ |}) as H.
  cbv zeta in H. destruct H as (_ & Hactive & _ & Hsilent & _).
  split; [apply Hsilent; by right|exact Hactive].
Defined.

Lemma connection_then_disconnect_witness :
  onDisconnect "socket1" (onConnection "socket1" 10 11 listening).2
  = ([ {| audience := Everyone; event := "user-count";
          payload := UserCount 0 |} ],
     listening).
Proof.
  exact (proj2 (connection_then_disconnect "socket1" 10 11 listening eq_refl)).
Defined.

(** The history after two strokes, and after two strokes and one undo;
    images are numbered. *)
Local Abbreviation twoStrokes :=
  (Canvas.run [Canvas.SaveState 1%nat; Canvas.SaveState 2%nat]
     (Canvas.constructor 0%nat)).

Local Abbreviation strokeUndone :=
  (Canvas.run [Canvas.SaveState 1%nat; Canvas.SaveState 2%nat; Canvas.Undo]
     (Canvas.constructor 0%nat)).

Lemma saveState_drops_redo_and_oldest_witness :
  Canvas.layers (Canvas.saveState 3%nat strokeUndone) = [0%nat; 1%nat; 3%nat]
  ∧ Canvas.canRedo (Canvas.saveState 3%nat strokeUndone) = false.
Proof.
  pose proof (saveState_drops_redo_and_oldest 3%nat strokeUndone) as H.
  cbv zeta in H. destruct H as (Hlayers & _ & _ & Hredo & _).
  - apply Inv_canvas_run, Inv_canvas_constructor.
  - split; [exact Hlayers|exact Hredo].
Defined.

Lemma client_undo_stops_at_first_layer_witness :
  (Canvas.undo twoStrokes).1 = Canvas.Returned true (Some 1%nat)
  ∧ Canvas.canUndo (Canvas.undos 2 twoStrokes) = false.
Proof.
  pose proof (client_undo_stops_at_first_layer 2 twoStrokes) as H.
  destruct H as (Hundo & _ & Hstop & _).
  - apply Inv_canvas_run, Inv_canvas_constructor.
  - split.
    + destruct (Hundo eq_refl) as (before & current & Hb & _ & Hu & _).
      rewrite Hu. f_equal. by rewrite <- Hb.
    + apply Hstop. by vm_compute.
Defined.
